(** * rate-limit-redis: the sliding-window limiter of [src/index.ts]

    The limiter keeps no state of its own.  Every window record lives in a
    Redis sorted set, one per identifier, and the three methods of
    [RateLimiter] ([check], [consume], [reset]) are short scripts of Redis
    commands.  The development has three layers:

    - [Redis]: the commands the limiter issues, as functions on a finite map
      from keys to sorted sets with an optional expiry;
    - the limiter itself, written in a small state-and-completion monad so
      that each method reads like its TypeScript source;
    - the properties of the limiter.

    Conventions.  Numbers are integers ([Z]): [windowMs], [max], [cost],
    scores and timestamps.  A [Date] is its millisecond timestamp.  A call
    runs at one instant [now]: it is what [Date.now()] returns and it is the
    clock of the store while the commands of that call execute.  The value
    [Math.random()] draws for the [i]-th entry of a call is given by its
    rendering [random i].  The keys of the store hold sorted sets only, and
    the store answers every command: a lost connection is outside the
    model, so no method below ever completes with a throw, although the
    monad lets one pass through. *)

From Stdlib Require Import Ascii.
From stdpp Require Import gmap strings pretty list fin_maps.

Open Scope Z_scope.

(** ** JavaScript's [||] on the values the limiter applies it to *)

(** [x || d] on a number that may be [undefined]: [undefined] and [0] are
    falsy, every other integer (negative ones included) is truthy. *)
Definition js_or (x : option Z) (d : Z) : Z :=
  match x with
  | Some v => if decide (v = 0) then d else v
  | None => d
  end.

(** [x || d] on a string that may be [undefined]: [undefined] and the empty
    string are falsy. *)
Definition js_or_string (x : option string) (d : string) : string :=
  match x with
  | Some v => if decide (v = "") then d else v
  | None => d
  end.

(** ** The store *)

Module Redis.

(** A key holds a sorted set (member to score) and, possibly, the instant
    at which it expires. *)
Record record := Record_ { zset : gmap string Z; expire : option Z }.

Abbreviation db := (gmap string record).

(** A key is expired once the clock is past its expiry. *)
Definition expired (t : Z) (r : record) : bool :=
  match expire r with
  | Some e => bool_decide (e < t)
  | None => false
  end.

(** Every command first drops the key it addresses if it is expired. *)
Definition expireIfNeeded (t : Z) (key : string) (s : db) : db :=
  match s !! key with
  | Some r => if expired t r then delete key s else s
  | None => s
  end.

Inductive command :=
| ZREMRANGEBYSCORE (key : string) (min max : Z)
| ZCARD (key : string)
| PTTL (key : string)
| ZADD (key : string) (score : Z) (member : string)
| PEXPIRE (key : string) (ms : Z)
| DEL (key : string).

Definition in_range (min max : Z) (score : Z) : Prop := min ≤ score ≤ max.

Definition zremrangebyscore (key : string) (min max : Z) (s : db) : Z * db :=
  match s !! key with
  | Some r =>
      let kept := filter (λ ms, ¬ in_range min max ms.2) (zset r) in
      let removed := Z.of_nat (size (zset r)) - Z.of_nat (size kept) in
      (removed,
       if decide (kept = ∅) then delete key s
       else <[key := Record_ kept (expire r)]> s)
  | None => (0, s)
  end.

Definition zcard (key : string) (s : db) : Z * db :=
  match s !! key with
  | Some r => (Z.of_nat (size (zset r)), s)
  | None => (0, s)
  end.

(** [-2]: no such key; [-1]: the key has no expiry. *)
Definition pttl (t : Z) (key : string) (s : db) : Z * db :=
  match s !! key with
  | Some r =>
      match expire r with
      | Some e => (Z.max (e - t) 0, s)
      | None => (-1, s)
      end
  | None => (-2, s)
  end.

(** Adding to a missing key creates it, without expiry; adding a member
    that is already there only updates its score. *)
Definition zadd (key : string) (score : Z) (member : string) (s : db)
  : Z * db :=
  match s !! key with
  | Some r =>
      (if zset r !! member is Some _ then 0 else 1,
       <[key := Record_ (<[member := score]> (zset r)) (expire r)]> s)
  | None => (1, <[key := Record_ {[member := score]} None]> s)
  end.

(** An expiry that is not in the future deletes the key. *)
Definition pexpire (t : Z) (key : string) (ms : Z) (s : db) : Z * db :=
  match s !! key with
  | Some r =>
      (1, if decide (t + ms ≤ t) then delete key s
          else <[key := Record_ (zset r) (Some (t + ms))]> s)
  | None => (0, s)
  end.

Definition del (key : string) (s : db) : Z * db :=
  match s !! key with
  | Some _ => (1, delete key s)
  | None => (0, s)
  end.

(** One command, run when the clock of the store shows [t]: its reply and
    the store it leaves. *)
Definition run (t : Z) (c : command) (s : db) : Z * db :=
  match c with
  | ZREMRANGEBYSCORE key min max =>
      zremrangebyscore key min max (expireIfNeeded t key s)
  | ZCARD key => zcard key (expireIfNeeded t key s)
  | PTTL key => pttl t key (expireIfNeeded t key s)
  | ZADD key score member => zadd key score member (expireIfNeeded t key s)
  | PEXPIRE key ms => pexpire t key ms (expireIfNeeded t key s)
  | DEL key => del key (expireIfNeeded t key s)
  end.

(** A [MULTI] ... [EXEC] batch: the commands run in order, with nothing in
    between, and the replies come back in the same order. *)
Fixpoint run_multi (t : Z) (cs : list command) (s : db) : list Z * db :=
  match cs with
  | [] => ([], s)
  | c :: cs =>
      let '(reply, s1) := run t c s in
      let '(replies, s2) := run_multi t cs s1 in
      (reply :: replies, s2)
  end.

End Redis.

Import Redis.

(** ** Completions and the monad of the methods *)

(** How a call ends: with a value, or with a thrown exception. *)
Inductive completion (A : Type) :=
| Normal (a : A)
| Throw (e : string).
Arguments Normal {A} a.
Arguments Throw {A} e.

(** An [async] method: from the store before to a completion and the store
    after. *)
Definition M (A : Type) : Type := db → completion A * db.

#[export] Instance M_ret : MRet M := λ A a s, (Normal a, s).

(** A throw skips the rest of the method and leaves the store as it is. *)
#[export] Instance M_bind : MBind M := λ A B f m s,
  match m s with
  | (Normal a, s') => f a s'
  | (Throw e, s') => (Throw e, s')
  end.

(** [await redis.cmd(...)]. *)
Definition call (now : Z) (c : command) : M Z :=
  λ s, let '(reply, s') := run now c s in (Normal reply, s').

(** [await multi.exec()]. *)
Definition exec (now : Z) (cs : list command) : M (list Z) :=
  λ s, let '(replies, s') := run_multi now cs s in (Normal replies, s').

(** ** The limiter *)

(** [resetAt] is a [Date] in the source. *)
Record RateLimitResult := {
  allowed : bool;
  remaining : Z;
  total : Z;
  resetAt : Z
}.

(** The optional fields of the options object; [None] is a field left out.
    The [redis] handle is the store that the methods thread. *)
Record RateLimiterOptions := {
  opt_windowMs : option Z;
  opt_max : option Z;
  opt_keyPrefix : option string
}.

Record RateLimiter := {
  windowMs : Z;
  max : Z;
  keyPrefix : string
}.

(** [constructor(options)]: each field is [options.field || default]. *)
Definition constructor (options : RateLimiterOptions)
  : completion RateLimiter :=
  Normal {| windowMs := js_or (opt_windowMs options) 60000;
            max := js_or (opt_max options) 100;
            keyPrefix := js_or_string (opt_keyPrefix options) "rl:" |}.

Definition getKey (L : RateLimiter) (identifier : string) : string :=
  keyPrefix L +:+ identifier.

(** [check(identifier)]: one batch (trim, count, time to live), then the
    decision. *)
Definition check (L : RateLimiter) (now : Z) (identifier : string)
  : M RateLimitResult :=
  let key := getKey L identifier in
  let windowStart := now - windowMs L in
  results ← exec now [ZREMRANGEBYSCORE key 0 windowStart; ZCARD key; PTTL key] ;
  let count := js_or (results !! 1%nat) 0 in
  let ttl := js_or (results !! 2%nat) (windowMs L) in
  let remaining := Z.max 0 (max L - count) in
  let resetAt := now + Z.max ttl 0 in
  mret {| allowed := count <? max L;
          remaining := remaining;
          total := max L;
          resetAt := resetAt |}.

(** The member of the [i]-th entry of a call:
    [`${now}-${i}-${Math.random()}`]. *)
Definition token (now : Z) (i : nat) (r : string) : string :=
  pretty now +:+ "-" +:+ pretty i +:+ "-" +:+ r.

(** The [zadd]s queued by the loop [for (let i = 0; i < cost; i++)]. *)
Definition adds (key : string) (now : Z) (random : nat → string) (cost : Z)
  : list command :=
  (λ i : nat, ZADD key (now + Z.of_nat i) (token now i (random i)))
    <$> seq 0 (Z.to_nat cost).

(** [consume(identifier, cost = 1)]: a first batch (trim, count); on a full
    window a lone [pttl] and the rejection; otherwise a second batch ([cost]
    times [zadd], then [pexpire]) and the admission.  [cost = None] is the
    call without the argument. *)
Definition consume (L : RateLimiter) (now : Z) (random : nat → string)
    (identifier : string) (cost : option Z) : M RateLimitResult :=
  let cost := default 1 cost in
  let key := getKey L identifier in
  let windowStart := now - windowMs L in
  results ← exec now [ZREMRANGEBYSCORE key 0 windowStart; ZCARD key] ;
  let currentCount := js_or (results !! 1%nat) 0 in
  if currentCount >=? max L then
    ttl ← call now (PTTL key) ;
    mret {| allowed := false;
            remaining := 0;
            total := max L;
            resetAt := now + Z.max ttl 0 |}
  else
    _ ← exec now (adds key now random cost ++ [PEXPIRE key (windowMs L)]) ;
    let remaining := Z.max 0 (max L - currentCount - cost) in
    mret {| allowed := true;
            remaining := remaining;
            total := max L;
            resetAt := now + windowMs L |}.

(** [reset(identifier)]: [del] on the key; [now] is the clock of the store. *)
Definition reset (L : RateLimiter) (now : Z) (identifier : string) : M unit :=
  _ ← call now (DEL (getKey L identifier)) ;
  mret tt.

(** ** The Express middleware

    [expressMiddleware(limiter, options)] returns a request handler.  What
    it does to the objects Express hands it is kept here as what it calls on
    them: the response is its status code, its headers and the body sent (a
    header is found under the name it was set with; the content type that
    [res.json] adds is left out), and the calls of [next] are listed in
    order, each with the error it was given, if any. *)

(** The values this file writes into headers and bodies. *)
Inductive json :=
| JUndefined
| JNumber (n : Z)
| JString (s : string).

(** A body is the object given to [res.json], field by field. *)
Record Response := {
  statusCode : Z;
  headers : gmap string json;
  body : option (list (string * json))
}.

Definition setHeader (name : string) (value : json) (res : Response)
  : Response :=
  {| statusCode := statusCode res;
     headers := <[name := value]> (headers res);
     body := body res |}.

Definition getHeader (name : string) (res : Response) : json :=
  default JUndefined (headers res !! name).

Definition status (code : Z) (res : Response) : Response :=
  {| statusCode := code; headers := headers res; body := body res |}.

Definition send_json (value : list (string * json)) (res : Response)
  : Response :=
  {| statusCode := statusCode res; headers := headers res;
     body := Some value |}.

(** What a request handler acts on: the store, the response, and the calls
    of [next] so far. *)
Record World := {
  store : db;
  response : Response;
  nexts : list (option string)
}.

Definition W (A : Type) : Type := World → completion A * World.

#[export] Instance W_ret : MRet W := λ A a w, (Normal a, w).

#[export] Instance W_bind : MBind W := λ A B f m w,
  match m w with
  | (Normal a, w') => f a w'
  | (Throw e, w') => (Throw e, w')
  end.

(** A method of the limiter, run on the store of the world. *)
Definition lift_store {A} (m : M A) : W A :=
  λ w, let '(c, s) := m (store w) in
       (c, {| store := s; response := response w; nexts := nexts w |}).

(** A call of a function the user supplied: it returns or throws. *)
Definition callback {A} (c : completion A) : W A := λ w, (c, w).

Definition on_response (f : Response → Response) : W unit :=
  λ w, (Normal tt,
        {| store := store w; response := f (response w); nexts := nexts w |}).

(** [next()] and [next(error)]. *)
Definition next (error : option string) : W unit :=
  λ w, (Normal tt,
        {| store := store w; response := response w;
           nexts := nexts w ++ [error] |}).

(** [try { body } catch (error) { handler }]. *)
Definition try_catch {A} (body : W A) (catch : string → W A) : W A :=
  λ w, match body w with
       | (Throw e, w') => catch e w'
       | (Normal a, w') => (Normal a, w')
       end.

(** The part of an Express request this file reads by itself: [req.ip]. *)
Class ExpressRequest (Req : Type) := req_ip : Req → option string.

(** [max] and [windowMs] are declared by the interface; [None] is a field
    left out. *)
Record MiddlewareOptions (Req : Type) := {
  mw_max : option Z;
  mw_windowMs : option Z;
  mw_keyGenerator : option (Req → completion string);
  mw_skip : option (Req → completion bool);
  mw_handler : option (Req → Response → completion Response);
  mw_headers : option bool
}.
Arguments mw_max {Req} _.
Arguments mw_windowMs {Req} _.
Arguments mw_keyGenerator {Req} _.
Arguments mw_skip {Req} _.
Arguments mw_handler {Req} _.
Arguments mw_headers {Req} _.

(** [Math.ceil(x / d)] on integers, for a positive [d]. *)
Definition ceil_div (x d : Z) : Z := - ((- x) / d).

(** The handler used when the options give none: status 429 and a body
    that repeats the [Retry-After] header. *)
Definition default_handler {Req} (req : Req) (res : Response)
  : completion Response :=
  Normal (send_json
            [("error", JString "Too Many Requests");
             ("retryAfter", getHeader "Retry-After" (status 429 res))]
            (status 429 res)).

(** A handler is given the response and leaves it changed, or throws. *)
Definition handle {Req} (handler : Req → Response → completion Response)
    (req : Req) : W unit :=
  λ w, match handler req (response w) with
       | Normal res => (Normal tt,
                        {| store := store w; response := res;
                           nexts := nexts w |})
       | Throw e => (Throw e, w)
       end.

(** The handler that [expressMiddleware] returns, on one request.  [now] is
    the instant of the [consume] it makes, [later] the instant [Date.now()]
    shows when [Retry-After] is computed. *)
Definition expressMiddleware `{ExpressRequest Req} (limiter : RateLimiter)
    (options : MiddlewareOptions Req) (now : Z) (random : nat → string)
    (later : Z) (req : Req) : W unit :=
  let keyGenerator :=
    default (λ req, Normal (js_or_string (req_ip req) "unknown"))
            (mw_keyGenerator options) in
  let skip := default (λ _, Normal false) (mw_skip options) in
  let headers := negb (bool_decide (mw_headers options = Some false)) in
  let handler := default default_handler (mw_handler options) in
  try_catch
    (skipped ← callback (skip req);
     if skipped : bool then next None
     else
       key ← callback (keyGenerator req);
       result ← lift_store (consume limiter now random key None);
       _ ← (if headers then
              _ ← on_response
                    (setHeader "X-RateLimit-Limit" (JNumber (total result)));
              _ ← on_response
                    (setHeader "X-RateLimit-Remaining"
                               (JNumber (remaining result)));
              on_response
                (setHeader "X-RateLimit-Reset"
                           (JNumber (ceil_div (resetAt result) 1000)))
            else mret tt);
       if negb (allowed result) then
         let retryAfter := ceil_div (resetAt result - later) 1000 in
         _ ← on_response (setHeader "Retry-After" (JNumber retryAfter));
         handle handler req
       else next None)
    (λ error, next (Some error)).

(** * Observations and auxiliary definitions

    What the properties below speak about: the record of an identifier as
    the store holds it, the store after the trim that opens [check] and
    [consume], the entries one call writes, and runs of calls. *)

(** The record under [key], if any, is not expired at [t]. *)
Definition live (t : Z) (key : string) (s : db) : Prop :=
  ∀ r, s !! key = Some r → expired t r = false.

(** The sorted set under [key]; a missing key reads as the empty set. *)
Definition zset_at (key : string) (s : db) : gmap string Z :=
  from_option zset ∅ (s !! key).

(** The score of a member, as [ZSCORE] would report it. *)
Definition zscore (key member : string) (s : db) : option Z :=
  zset_at key s !! member.

(** The number of entries under [key], as [ZCARD] reports it. *)
Definition entry_count (key : string) (s : db) : Z := (zcard key s).1.

(** The store as the first command of [check] and [consume] leaves it. *)
Definition trim (L : RateLimiter) (now : Z) (identifier : string) (s : db)
  : db :=
  (run now (ZREMRANGEBYSCORE (getKey L identifier) 0 (now - windowMs L)) s).2.

(** A string without the character [-]. *)
Fixpoint dash_free (s : string) : Prop :=
  match s with
  | EmptyString => True
  | String c s => c ≠ "-"%char ∧ dash_free s
  end.

(** The members and scores that the loop of a call of the given cost
    queues, in order. *)
Definition entries (now : Z) (random : nat → string) (cost : Z)
  : list (string * Z) :=
  (λ i : nat, (token now i (random i), now + Z.of_nat i))
    <$> seq 0 (Z.to_nat cost).

(** A sorted set after a list of entries is added one by one. *)
Definition add_entries (es : list (string * Z)) (z : gmap string Z)
  : gmap string Z :=
  foldl (λ z e, <[e.1 := e.2]> z) z es.

Definition zadds (key : string) (es : list (string * Z)) : list command :=
  (λ e, ZADD key e.2 e.1) <$> es.

(** [window_state key t0 w z s]: in [s], the record under [key] holds exactly
    the entries [z], all of them scored [t0] or later, and does not expire
    before [t0 + w]; with no entries there is no record.  This is what the
    calls of an identifier leave behind as long as they all fall in the
    window that starts at [t0]. *)
Definition window_state (key : string) (t0 w : Z) (z : gmap string Z)
    (s : db) : Prop :=
  (z = ∅ ∧ s !! key = None)
  ∨ (z ≠ ∅ ∧ map_Forall (λ _ v, t0 ≤ v) z
     ∧ ∃ e, s !! key = Some (Record_ z (Some e)) ∧ t0 + w ≤ e).

(** A run of sequential [consume(identifier, 1)] calls.  Each call comes
    with its instant and its random draws; the results are listed in call
    order. *)
Fixpoint consume_each (L : RateLimiter) (identifier : string)
    (calls : list (Z * (nat → string))) (s : db)
  : list (completion RateLimitResult) * db :=
  match calls with
  | [] => ([], s)
  | (now, random) :: calls =>
      let '(r, s1) := consume L now random identifier (Some 1) s in
      let '(rs, s2) := consume_each L identifier calls s1 in
      (r :: rs, s2)
  end.

(** The token of a call of cost [1]. *)
Definition call_token (c : Z * (nat → string)) : string :=
  token c.1 0 (c.2 0%nat).

(** A store in which ["rl:u"] holds one entry, scored 4900, and expires at
    5900. *)
Definition one_entry : db :=
  <["rl:u" := Record_ {["4900-0-0.1" := 4900]} (Some 5900)]> ∅.

(** The key a command addresses. *)
Definition key_of (c : command) : string :=
  match c with
  | ZREMRANGEBYSCORE key _ _ | ZCARD key | PTTL key
  | ZADD key _ _ | PEXPIRE key _ | DEL key => key
  end.

(** What the trim at [now], with the window starting at [windowStart],
    leaves of one record: nothing of an expired record, nothing when every
    entry is in the range, otherwise the entries outside the range. *)
Definition trim_record (now windowStart : Z) (r : record) : option record :=
  if expired now r then None
  else
    let kept := filter (λ ms, ¬ in_range 0 windowStart ms.2) (zset r) in
    if decide (kept = ∅) then None else Some (Record_ kept (expire r)).

(** A request that is only its address. *)
#[export] Instance address_request : ExpressRequest (option string) :=
  λ req, req.

(** The options object [{}]. *)
Definition no_options {Req} : MiddlewareOptions Req :=
  {| mw_max := None; mw_windowMs := None; mw_keyGenerator := None;
     mw_skip := None; mw_handler := None; mw_headers := None |}.

(** A response nothing was written to. *)
Definition blank : Response :=
  {| statusCode := 200; headers := ∅; body := None |}.

(** The four values [expressMiddleware] settles from its options before it
    returns the handler. *)
Definition keyGenerator_of `{ExpressRequest Req}
    (options : MiddlewareOptions Req) : Req → completion string :=
  default (λ req, Normal (js_or_string (req_ip req) "unknown"))
          (mw_keyGenerator options).

Definition skip_of {Req} (options : MiddlewareOptions Req)
  : Req → completion bool :=
  default (λ _, Normal false) (mw_skip options).

Definition headers_of {Req} (options : MiddlewareOptions Req) : bool :=
  negb (bool_decide (mw_headers options = Some false)).

Definition handler_of {Req} (options : MiddlewareOptions Req)
  : Req → Response → completion Response :=
  default default_handler (mw_handler options).

(** The response with the three [X-RateLimit-] headers of a result. *)
Definition with_rate_headers (result : RateLimitResult) (res : Response)
  : Response :=
  setHeader "X-RateLimit-Reset" (JNumber (ceil_div (resetAt result) 1000))
    (setHeader "X-RateLimit-Remaining" (JNumber (remaining result))
       (setHeader "X-RateLimit-Limit" (JNumber (total result)) res)).

(** The value written to [Retry-After]. *)
Definition retry_after (result : RateLimitResult) (later : Z) : Z :=
  ceil_div (resetAt result - later) 1000.

#[local] Arguments js_or : simpl never.

(** * Properties *)

(** ** Tokens

    Within one call the tokens differ in their index: the rendering of an
    index has no dash, so the index can be read back from the token. *)

Lemma pretty_N_char_no_dash (x : N) : pretty_N_char x ≠ "-"%char.
Proof. unfold pretty_N_char. by repeat case_match. Qed.

Lemma pretty_N_go_dash_free (x : N) (s : string) :
  dash_free s → dash_free (pretty_N_go x s).
Proof.
  revert s. induction (N.lt_wf_0 x) as [x _ IH]; intros s Hs.
  destruct (decide (x = 0%N)) as [->|Hx].
  - by rewrite pretty_N_go_0.
  - rewrite pretty_N_go_step by lia.
    apply IH; [apply N.div_lt; lia|].
    split; [apply pretty_N_char_no_dash | done].
Qed.

Lemma pretty_nat_dash_free (i : nat) : dash_free (pretty i).
Proof.
  unfold pretty, pretty_nat, pretty, pretty_N.
  case_decide; [by simpl | by apply pretty_N_go_dash_free].
Qed.

Lemma dash_free_prefix (s1 s2 r1 r2 : string) :
  dash_free s1 → dash_free s2 →
  s1 +:+ String "-" r1 = s2 +:+ String "-" r2 → s1 = s2.
Proof.
  revert s2. induction s1 as [|c s1 IH]; intros [|d s2]; simpl.
  - done.
  - intros _ [Hd _] [= <- _]. done.
  - intros [Hc _] _ [= -> _]. done.
  - intros [_ H1] [_ H2] [= -> Heq]. f_equal. by apply IH.
Qed.

Lemma token_index (now : Z) (i j : nat) (r r' : string) :
  token now i r = token now j r' → i = j.
Proof.
  unfold token. intros Heq.
  apply (inj (String.app (pretty now))) in Heq.
  simpl in Heq. injection Heq as Heq.
  apply dash_free_prefix in Heq; auto using pretty_nat_dash_free.
  by apply (inj pretty) in Heq.
Qed.

(** ** The store: expiry, trimming, adding *)

Lemma js_or_0 (v : Z) : js_or (Some v) 0 = v.
Proof. unfold js_or. by case_decide. Qed.

Lemma expireIfNeeded_live t key s : live t key (expireIfNeeded t key s).
Proof.
  unfold live, expireIfNeeded. intros r.
  destruct (s !! key) as [r0|] eqn:Hk; [|by rewrite Hk].
  destruct (expired t r0) eqn:He.
  - by rewrite lookup_delete_eq.
  - rewrite Hk. by intros [= <-].
Qed.

Lemma live_expireIfNeeded t key s : live t key s → expireIfNeeded t key s = s.
Proof.
  unfold live, expireIfNeeded. intros Hl.
  destruct (s !! key) as [r|] eqn:Hk; [|done].
  by rewrite (Hl r).
Qed.

Lemma expireIfNeeded_other t key k s :
  k ≠ key → expireIfNeeded t key s !! k = s !! k.
Proof.
  intros Hne. unfold expireIfNeeded.
  destruct (s !! key) as [r|]; [|done].
  destruct (expired t r); [by rewrite lookup_delete_ne|done].
Qed.

Lemma zremrangebyscore_live t key lo hi s :
  live t key s → live t key (zremrangebyscore key lo hi s).2.
Proof.
  unfold live, zremrangebyscore. intros Hl r.
  destruct (s !! key) as [r0|] eqn:Hk; simpl; [|by rewrite Hk].
  case_decide.
  - by rewrite lookup_delete_eq.
  - rewrite lookup_insert_eq. intros [= <-].
    specialize (Hl r0 eq_refl). by unfold expired in *.
Qed.

Lemma trim_live L now identifier s :
  live now (getKey L identifier) (trim L now identifier s).
Proof. apply zremrangebyscore_live, expireIfNeeded_live. Qed.

Lemma zcard_store key s : (zcard key s).2 = s.
Proof. unfold zcard. by destruct (s !! key). Qed.

Lemma pttl_store t key s : (pttl t key s).2 = s.
Proof. unfold pttl. destruct (s !! key) as [[z [e|]]|]; done. Qed.

Lemma entry_count_size key s :
  entry_count key s = Z.of_nat (size (zset_at key s)).
Proof.
  unfold entry_count, zcard, zset_at.
  destruct (s !! key); simpl; [done | by rewrite map_size_empty].
Qed.

Lemma entry_count_nonneg key s : 0 ≤ entry_count key s.
Proof. rewrite entry_count_size. lia. Qed.

(** The first batch of [check], seen from the trimmed store. *)
Lemma check_unfold L now identifier s :
  let key := getKey L identifier in
  let s1 := trim L now identifier s in
  let count := entry_count key s1 in
  check L now identifier s =
  (Normal {| allowed := count <? max L;
             remaining := Z.max 0 (max L - count);
             total := max L;
             resetAt := now + Z.max (js_or (Some (pttl now key s1).1)
                                           (windowMs L)) 0 |},
   s1).
Proof.
  intros key s1 count.
  unfold check, mbind, M_bind, exec, run_multi; simpl.
  fold key.
  change (zremrangebyscore key 0 (now - windowMs L) (expireIfNeeded now key s))
    with (run now (ZREMRANGEBYSCORE key 0 (now - windowMs L)) s).
  destruct (run now (ZREMRANGEBYSCORE key 0 (now - windowMs L)) s)
    as [removed s1'] eqn:Hrun.
  assert (s1 = s1') as <- by (unfold s1, trim; fold key; by rewrite Hrun).
  rewrite (live_expireIfNeeded now key s1) by apply trim_live.
  destruct (zcard key s1) as [c s2] eqn:Hc.
  assert (s2 = s1) as -> by (by rewrite <-(zcard_store key s1), Hc).
  assert (c = count) as -> by (unfold count, entry_count; by rewrite Hc).
  rewrite (live_expireIfNeeded now key s1) by apply trim_live.
  destruct (pttl now key s1) as [ttl s3] eqn:Hp.
  assert (s3 = s1) as -> by (by rewrite <-(pttl_store now key s1), Hp).
  simpl. by rewrite js_or_0.
Qed.

Lemma consume_default_cost L now random identifier :
  consume L now random identifier None = consume L now random identifier (Some 1).
Proof. done. Qed.

(** The two branches of [consume], seen from the trimmed store. *)
Lemma consume_unfold L now random identifier cost s :
  let key := getKey L identifier in
  let s1 := trim L now identifier s in
  let count := entry_count key s1 in
  consume L now random identifier cost s =
  if count >=? max L then
    (Normal {| allowed := false;
               remaining := 0;
               total := max L;
               resetAt := now + Z.max (pttl now key s1).1 0 |},
     s1)
  else
    (Normal {| allowed := true;
               remaining := Z.max 0 (max L - count - default 1 cost);
               total := max L;
               resetAt := now + windowMs L |},
     (run_multi now (adds key now random (default 1 cost)
                     ++ [PEXPIRE key (windowMs L)]) s1).2).
Proof.
  intros key s1 count.
  unfold consume, mbind, M_bind, exec, run_multi at 1; simpl.
  fold key.
  change (zremrangebyscore key 0 (now - windowMs L) (expireIfNeeded now key s))
    with (run now (ZREMRANGEBYSCORE key 0 (now - windowMs L)) s).
  destruct (run now (ZREMRANGEBYSCORE key 0 (now - windowMs L)) s)
    as [removed s1'] eqn:Hrun.
  assert (s1 = s1') as <- by (unfold s1, trim; fold key; by rewrite Hrun).
  rewrite (live_expireIfNeeded now key s1) by apply trim_live.
  destruct (zcard key s1) as [c s2] eqn:Hc.
  assert (s2 = s1) as -> by (by rewrite <-(zcard_store key s1), Hc).
  assert (c = count) as -> by (unfold count, entry_count; by rewrite Hc).
  simpl. rewrite js_or_0.
  destruct (count >=? max L).
  - unfold call; simpl.
    rewrite (live_expireIfNeeded now key s1) by apply trim_live.
    destruct (pttl now key s1) as [ttl s3] eqn:Hp.
    assert (s3 = s1) as -> by (by rewrite <-(pttl_store now key s1), Hp).
    done.
  - by destruct (run_multi now _ s1).
Qed.

(** *** The write batch *)

Lemma adds_entries key now random cost :
  adds key now random cost = zadds key (entries now random cost).
Proof. unfold adds, zadds, entries. by rewrite <-list_fmap_compose. Qed.

Lemma run_multi_app t cs1 cs2 s :
  (run_multi t (cs1 ++ cs2) s).2 = (run_multi t cs2 (run_multi t cs1 s).2).2.
Proof.
  revert s. induction cs1 as [|c cs1 IH]; intros s; simpl; [done|].
  destruct (run t c s) as [reply s1].
  specialize (IH s1).
  destruct (run_multi t (cs1 ++ cs2) s1), (run_multi t cs1 s1).
  done.
Qed.

Lemma zadd_store key score member s :
  (zadd key score member s).2 =
  <[key := Record_ (<[member := score]> (zset_at key s))
                   (s !! key ≫= expire)]> s.
Proof.
  unfold zadd, zset_at. destruct (s !! key) as [r|]; simpl; [done|].
  by rewrite insert_empty.
Qed.

Lemma live_insert t key z e s :
  live t key s → s !! key ≫= expire = e →
  live t key (<[key := Record_ z e]> s).
Proof.
  unfold live. intros Hl He r. rewrite lookup_insert_eq. intros [= <-].
  destruct (s !! key) as [r0|]; simpl in He; subst e; [|done].
  specialize (Hl r0 eq_refl). by unfold expired in *.
Qed.

(** With at least one entry to add, the batch of [zadd]s leaves the key
    with the old members and the new ones, and with the expiry it had. *)
Lemma run_multi_zadds t key es s :
  live t key s → es ≠ [] →
  (run_multi t (zadds key es) s).2 =
  <[key := Record_ (add_entries es (zset_at key s)) (s !! key ≫= expire)]> s.
Proof.
  revert s. induction es as [|e es IH]; intros s Hl Hne; [done|].
  simpl. rewrite (live_expireIfNeeded t key s) by done.
  destruct (zadd key e.2 e.1 s) as [reply s1] eqn:Hz.
  assert (s1 = (zadd key e.2 e.1 s).2) as Hs1 by (by rewrite Hz).
  rewrite zadd_store in Hs1.
  destruct (run_multi t (zadds key es) s1) as [replies s2] eqn:Hm. simpl.
  assert (s2 = (run_multi t (zadds key es) s1).2) as -> by (by rewrite Hm).
  destruct es as [|e' es]; [by simpl|].
  rewrite IH; [|subst s1; by apply live_insert|done].
  subst s1. unfold zset_at at 1.
  rewrite lookup_insert_eq, insert_insert_eq. simpl. done.
Qed.

Lemma pexpire_store t key ms s :
  0 < ms →
  (pexpire t key ms s).2 =
  match s !! key with
  | Some r => <[key := Record_ (zset r) (Some (t + ms))]> s
  | None => s
  end.
Proof.
  intros Hms. unfold pexpire. destruct (s !! key); simpl; [|done].
  case_decide; [lia | done].
Qed.

(** The store after the second batch of an admitted [consume]. *)
Lemma write_batch t key es ms s :
  live t key s → 0 < ms →
  (run_multi t (zadds key es ++ [PEXPIRE key ms]) s).2 =
  if decide (es = [] ∧ s !! key = None) then s
  else <[key := Record_ (add_entries es (zset_at key s)) (Some (t + ms))]> s.
Proof.
  intros Hl Hms. rewrite run_multi_app.
  destruct es as [|e es].
  - simpl. rewrite (live_expireIfNeeded t key s) by done.
    destruct (pexpire t key ms s) as [reply s1] eqn:Hp. simpl.
    assert (s1 = (pexpire t key ms s).2) as -> by (by rewrite Hp).
    rewrite pexpire_store by done. unfold zset_at.
    clear Hp. destruct (decide _) as [[_ Hn]|Hd].
    + by rewrite Hn.
    + destruct (s !! key) as [r|] eqn:Hk; [done|]. by destruct Hd.
  - rewrite decide_False by (intros [? _]; done).
    rewrite run_multi_zadds by done.
    set (s1 := <[key := _]> s).
    assert (live t key s1) as Hl1 by (by apply live_insert).
    unfold run_multi, run.
    rewrite (live_expireIfNeeded t key s1) by done.
    destruct (pexpire t key ms s1) as [reply s2] eqn:Hp. simpl.
    assert (s2 = (pexpire t key ms s1).2) as -> by (by rewrite Hp).
    rewrite pexpire_store by done.
    unfold s1. rewrite lookup_insert_eq, insert_insert_eq. done.
Qed.

(** *** What [add_entries] leaves in the sorted set *)

Lemma add_entries_cons e es z :
  add_entries (e :: es) z = add_entries es (<[e.1 := e.2]> z).
Proof. done. Qed.

Lemma add_entries_lookup_notin es z (m : string) :
  m ∉ es.*1 → add_entries es z !! m = z !! m.
Proof.
  revert z. induction es as [|[k v] es IH]; intros z Hm; [done|].
  rewrite fmap_cons in Hm. apply not_elem_of_cons in Hm as [Hne Hm].
  rewrite add_entries_cons, IH by done.
  by rewrite lookup_insert_ne.
Qed.

Lemma add_entries_lookup_in es z (m : string) (v : Z) :
  NoDup es.*1 → (m, v) ∈ es → add_entries es z !! m = Some v.
Proof.
  revert z. induction es as [|[k w] es IH]; intros z Hnd Hin.
  - by apply elem_of_nil in Hin.
  - rewrite fmap_cons in Hnd. apply NoDup_cons in Hnd as [Hk Hnd].
    rewrite add_entries_cons.
    apply elem_of_cons in Hin as [[= -> ->]|Hin].
    + rewrite add_entries_lookup_notin by done. apply lookup_insert_eq.
    + by apply IH.
Qed.

Lemma add_entries_size es (z : gmap string Z) :
  NoDup es.*1 → (∀ m, m ∈ es.*1 → z !! m = None) →
  size (add_entries es z) = (size z + length es)%nat.
Proof.
  revert z. induction es as [|[k w] es IH]; intros z Hnd Hfresh.
  - simpl. lia.
  - rewrite fmap_cons in Hnd. apply NoDup_cons in Hnd as [Hk Hnd].
    rewrite add_entries_cons, IH; [|done|].
    + rewrite map_size_insert_None
        by (apply Hfresh; rewrite fmap_cons; apply elem_of_cons; by left).
      simpl. lia.
    + intros m Hm. rewrite lookup_insert_ne by (by intros <-).
      apply Hfresh. rewrite fmap_cons. apply elem_of_cons. by right.
Qed.

Lemma add_entries_Forall (P : string → Z → Prop) es z :
  map_Forall P z → Forall (λ e, P e.1 e.2) es →
  map_Forall P (add_entries es z).
Proof.
  revert z. induction es as [|[k w] es IH]; intros z Hz Hes; [done|].
  apply Forall_cons in Hes as [He Hes].
  rewrite add_entries_cons. apply IH; [|done].
  by apply map_Forall_insert_2.
Qed.

(** *** The entries of one call *)

Lemma entries_length now random cost :
  length (entries now random cost) = Z.to_nat cost.
Proof. unfold entries. by rewrite length_fmap, length_seq. Qed.

Lemma elem_of_entries now random cost m v :
  (m, v) ∈ entries now random cost ↔
  ∃ i : nat, Z.of_nat i < cost ∧ m = token now i (random i)
             ∧ v = now + Z.of_nat i.
Proof.
  unfold entries. rewrite list_elem_of_fmap. split.
  - intros (i & [= -> ->] & Hi). apply elem_of_seq in Hi.
    exists i. split_and!; [lia|done..].
  - intros (i & Hi & -> & ->). exists i. split; [done|].
    apply elem_of_seq. lia.
Qed.

Lemma elem_of_entries_keys now random cost m :
  m ∈ (entries now random cost).*1 ↔
  ∃ i : nat, Z.of_nat i < cost ∧ m = token now i (random i).
Proof.
  rewrite list_elem_of_fmap. split.
  - intros ([m' v] & -> & Hin). apply elem_of_entries in Hin.
    destruct Hin as (i & ? & ? & ?). by exists i.
  - intros (i & Hi & ->). exists (token now i (random i), now + Z.of_nat i).
    split; [done|]. apply elem_of_entries. by exists i.
Qed.

(** The tokens of one call are pairwise distinct. *)
Lemma entries_NoDup now random cost : NoDup (entries now random cost).*1.
Proof.
  unfold entries. rewrite <-list_fmap_compose.
  apply NoDup_fmap_2_strong; [|apply NoDup_seq].
  intros i j _ _ Heq. simpl in Heq. by apply token_index in Heq.
Qed.

Lemma entries_nil now random cost :
  entries now random cost = [] ↔ cost ≤ 0.
Proof.
  rewrite <-length_zero_iff_nil, entries_length. lia.
Qed.

(** ** [consume] *)

(** The store an admitted call leaves, for a positive window length. *)
Lemma consume_admit L now random identifier cost s :
  let key := getKey L identifier in
  let s1 := trim L now identifier s in
  let count := entry_count key s1 in
  let es := entries now random (default 1 cost) in
  0 < windowMs L → count < max L →
  consume L now random identifier cost s =
  (Normal {| allowed := true;
             remaining := Z.max 0 (max L - count - default 1 cost);
             total := max L;
             resetAt := now + windowMs L |},
   if decide (es = [] ∧ s1 !! key = None) then s1
   else <[key := Record_ (add_entries es (zset_at key s1))
                         (Some (now + windowMs L))]> s1).
Proof.
  intros key s1 count es Hw Hc.
  rewrite consume_unfold. fold key s1 count.
  destruct (Z.geb_spec count (max L)) as [?|_]; [lia|].
  rewrite adds_entries, write_batch; [done| apply trim_live | done].
Qed.


(** C6.  A [consume] that finds the window full (the count after the trim is
    at least [max]) returns normally, with [allowed = false] and
    [remaining = 0], and the store it leaves is the store as the trim left
    it. *)
Theorem consume_rejected L now random identifier cost s :
  let key := getKey L identifier in
  let s1 := trim L now identifier s in
  max L ≤ entry_count key s1 →
  consume L now random identifier cost s =
  (Normal {| allowed := false;
             remaining := 0;
             total := max L;
             resetAt := now + Z.max (pttl now key s1).1 0 |},
   s1).
Proof.
  intros key s1 Hfull.
  rewrite consume_unfold. fold key s1.
  destruct (Z.geb_spec (entry_count key s1) (max L)) as [_|?]; [done|lia].
Qed.


(** ** [check], [reset] and the constructor *)

Lemma trim_absent L now identifier s :
  s !! getKey L identifier = None → trim L now identifier s = s.
Proof.
  intros Hk. unfold trim, run, expireIfNeeded, zremrangebyscore.
  by rewrite !Hk.
Qed.

(** [check] on an identifier that has no record. *)
Lemma check_absent L now identifier s :
  s !! getKey L identifier = None →
  check L now identifier s =
  (Normal {| allowed := 0 <? max L;
             remaining := Z.max 0 (max L);
             total := max L;
             resetAt := now |}, s).
Proof.
  intros Hk. rewrite check_unfold, trim_absent by done.
  unfold entry_count, zcard, pttl. rewrite Hk. simpl.
  by rewrite Z.sub_0_r, Z.add_0_r.
Qed.

(** What [check] reports as [resetAt], by the reply of [PTTL]: a positive
    time to live is added to [now]; the replies [-2] (no record) and [-1] (no
    expiry) are truthy and clamp to [0]; only the reply [0] falls back to
    [windowMs]. *)
Lemma check_resetAt L now identifier s r s1 :
  check L now identifier s = (Normal r, s1) →
  let ttl := (pttl now (getKey L identifier) (trim L now identifier s)).1 in
  resetAt r =
  if decide (ttl = 0) then now + Z.max (windowMs L) 0
  else if decide (ttl < 0) then now
  else now + ttl.
Proof.
  rewrite check_unfold. intros [= <- _] ttl. simpl. fold ttl.
  unfold js_or. repeat case_decide; lia.
Qed.

Lemma reset_store L now identifier s :
  reset L now identifier s = (Normal tt, delete (getKey L identifier) s).
Proof.
  unfold reset, mbind, M_bind, call, run, del, expireIfNeeded.
  destruct (s !! getKey L identifier) as [r|] eqn:Hk.
  - destruct (expired now r).
    + by rewrite lookup_delete_eq.
    + by rewrite Hk.
  - by rewrite Hk, delete_id.
Qed.

(** C2.  On an identifier that has no record the store answers [PTTL] with
    [-2], which [||] does not replace: [check] reports [resetAt = now], not
    [now + windowMs]. *)
Theorem check_never_used_resetAt :
  let L := {| windowMs := 1000; max := 10; keyPrefix := "rl:" |} in
  constructor {| opt_windowMs := Some 1000; opt_max := Some 10;
                 opt_keyPrefix := None |} = Normal L
  ∧ (pttl 5000 (getKey L "u") ∅).1 = -2
  ∧ check L 5000 "u" ∅ =
      (Normal {| allowed := true; remaining := 10; total := 10;
                 resetAt := 5000 |}, ∅)
  ∧ 5000 ≠ 5000 + windowMs L.
Proof. split_and!; done. Qed.

(** C7.  [reset] returns normally and removes the record, whether or not
    there was one; a [check] after it, on a limiter with [max > 0], reports
    [allowed = true] and [remaining = total = max], and is the result of
    [check] on any store in which the identifier has no record. *)
Theorem reset_then_check L t now identifier s :
  let key := getKey L identifier in
  0 < max L →
  ∃ s1,
    reset L t identifier s = (Normal tt, s1)
    ∧ s1 !! key = None
    ∧ (∀ k, k ≠ key → s1 !! k = s !! k)
    ∧ (s !! key = None → s1 = s)
    ∧ ∃ r,
        (check L now identifier s1).1 = Normal r
        ∧ allowed r = true ∧ remaining r = max L ∧ total r = max L
        ∧ ∀ s0, s0 !! key = None →
                (check L now identifier s0).1 = Normal r.
Proof.
  intros key Hmax. eexists. split; [apply reset_store|]. fold key.
  split_and!.
  - apply lookup_delete_eq.
  - intros k Hk. by apply lookup_delete_ne.
  - apply delete_id.
  - eexists. split_and!.
    + rewrite check_absent by apply lookup_delete_eq. done.
    + simpl. by apply Z.ltb_lt.
    + simpl. lia.
    + done.
    + intros s0 Hk. by rewrite check_absent.
Qed.


(** C9.  The constructor replaces a [windowMs] of [0] by [60000], a [max] of
    [0] by [100] and an empty [keyPrefix] by ["rl:"]: a limiter configured
    with [max = 0] is the limiter configured with [max = 100], and its first
    [consume] on a fresh identifier is admitted with [remaining = 99]. *)
Theorem constructor_falsy_defaults :
  (∀ m p, ∃ L,
     constructor {| opt_windowMs := Some 0; opt_max := m;
                    opt_keyPrefix := p |} = Normal L
     ∧ windowMs L = 60000)
  ∧ (∀ w p, ∃ L,
       constructor {| opt_windowMs := w; opt_max := Some 0;
                      opt_keyPrefix := p |} = Normal L
       ∧ max L = 100)
  ∧ (∀ w m, ∃ L,
       constructor {| opt_windowMs := w; opt_max := m;
                      opt_keyPrefix := Some "" |} = Normal L
       ∧ keyPrefix L = "rl:")
  ∧ (∀ w p,
       constructor {| opt_windowMs := w; opt_max := Some 0;
                      opt_keyPrefix := p |} =
       constructor {| opt_windowMs := w; opt_max := Some 100;
                      opt_keyPrefix := p |})
  ∧ (∀ w p now random identifier,
       ∃ L s,
         constructor {| opt_windowMs := w; opt_max := Some 0;
                        opt_keyPrefix := p |} = Normal L
         ∧ consume L now random identifier None ∅ =
             (Normal {| allowed := true; remaining := 99; total := 100;
                        resetAt := now + windowMs L |}, s)).
Proof.
  split_and!.
  - intros m p. by eexists.
  - intros w p. by eexists.
  - intros w m. by eexists.
  - done.
  - intros w p now random identifier. do 2 eexists. split; [done|].
    rewrite consume_unfold, trim_absent by done.
    unfold entry_count, zcard. rewrite lookup_empty. simpl.
    match goal with |- (?r, ?s1) = (_, ?e) => by instantiate (1 := s1) end.
Qed.

(** ** Calls within one window *)

Lemma window_state_zset_at key t0 w z s :
  window_state key t0 w z s → zset_at key s = z.
Proof.
  unfold zset_at. intros [[-> ->]|(_ & _ & e & -> & _)]; done.
Qed.

Lemma window_state_count key t0 w z s :
  window_state key t0 w z s → entry_count key s = Z.of_nat (size z).
Proof.
  intros Hws. by rewrite entry_count_size, (window_state_zset_at _ _ _ _ _ Hws).
Qed.

(** A call inside the window trims nothing. *)
Lemma trim_window L now identifier t0 z s :
  window_state (getKey L identifier) t0 (windowMs L) z s →
  now < t0 + windowMs L →
  trim L now identifier s = s.
Proof.
  intros [[_ Hk]|(Hz & Hsc & e & Hk & He)] Hnow; [by apply trim_absent|].
  unfold trim, run, expireIfNeeded, expired. rewrite Hk. simpl.
  rewrite bool_decide_eq_false_2 by lia.
  unfold zremrangebyscore. rewrite Hk. simpl.
  rewrite map_filter_id.
  - rewrite decide_False by done. by apply insert_id.
  - intros m v Hm. apply Hsc in Hm. unfold in_range. simpl. lia.
Qed.

Lemma add_entries_nonempty now random cost z :
  0 < cost → add_entries (entries now random cost) z ≠ ∅.
Proof.
  intros Hc Hempty.
  assert (add_entries (entries now random cost) z
            !! token now 0%nat (random 0%nat) = Some (now + Z.of_nat 0)) as Hl.
  { apply add_entries_lookup_in; [apply entries_NoDup|].
    apply elem_of_entries. exists 0%nat. split_and!; [lia|done..]. }
  by rewrite Hempty in Hl.
Qed.

(** A call that finds the window full changes nothing. *)
Lemma consume_window_full L now random identifier cost t0 z s :
  let key := getKey L identifier in
  window_state key t0 (windowMs L) z s →
  now < t0 + windowMs L →
  max L ≤ Z.of_nat (size z) →
  ∃ ra,
    consume L now random identifier cost s =
    (Normal {| allowed := false; remaining := 0; total := max L;
               resetAt := ra |}, s).
Proof.
  intros key Hws Hnow Hfull. eexists.
  rewrite consume_unfold, (trim_window _ _ _ _ _ _ Hws Hnow). fold key.
  rewrite (window_state_count _ _ _ _ _ Hws).
  destruct (Z.geb_spec (Z.of_nat (size z)) (max L)) as [_|?]; [done|lia].
Qed.

(** A call that finds room adds its entries and restarts the expiry. *)
Lemma consume_window_admit L now random identifier cost t0 z s :
  let key := getKey L identifier in
  let es := entries now random (default 1 cost) in
  window_state key t0 (windowMs L) z s →
  t0 ≤ now < t0 + windowMs L →
  Z.of_nat (size z) < max L →
  ∃ s1,
    consume L now random identifier cost s =
    (Normal {| allowed := true;
               remaining :=
                 Z.max 0 (max L - Z.of_nat (size z) - default 1 cost);
               total := max L;
               resetAt := now + windowMs L |}, s1)
    ∧ window_state key t0 (windowMs L) (add_entries es z) s1.
Proof.
  intros key es Hws Hnow Hroom.
  assert (now < t0 + windowMs L) as Hnow' by lia.
  eexists. split.
  { rewrite consume_admit; rewrite ?(trim_window _ _ _ _ _ _ Hws Hnow');
      fold key; rewrite ?(window_state_count _ _ _ _ _ Hws); [done|lia|done]. }
  fold key es. rewrite (window_state_zset_at _ _ _ _ _ Hws).
  assert (map_Forall (λ _ v, t0 ≤ v) (add_entries es z)) as Hsc.
  { apply add_entries_Forall.
    - destruct Hws as [[-> _]|(_ & Hsc & _)]; [apply map_Forall_empty|done].
    - apply Forall_forall. intros [m v] Hin.
      apply elem_of_entries in Hin as (i & _ & _ & ->). simpl. lia. }
  destruct (decide (es = [] ∧ s !! key = None)) as [[Hes Hk]|Hd].
  - rewrite Hes. left. split; [|done].
    destruct Hws as [[-> _]|(_ & _ & e & Hk' & _)]; [done|congruence].
  - right. split_and!; [|done|].
    + destruct (decide (es = [])) as [Hes|Hes].
      * rewrite Hes. destruct Hws as [[_ ?]|(? & _)]; [by destruct Hd|done].
      * apply add_entries_nonempty.
        destruct (decide (0 < default 1 cost)); [done|].
        destruct Hes. apply entries_nil. lia.
    + eexists. split; [apply lookup_insert_eq|lia].
Qed.

(** *** A run of sequential [consume(identifier, 1)] calls *)

Lemma entries_one now random :
  entries now random 1 = [(token now 0 (random 0%nat), now + Z.of_nat 0)].
Proof. done. Qed.

Lemma consume_each_window L identifier t0 calls :
  let key := getKey L identifier in
  ∀ z s,
    window_state key t0 (windowMs L) z s →
    (∀ c, c ∈ calls → t0 ≤ c.1 < t0 + windowMs L) →
    NoDup (call_token <$> calls) →
    (∀ c, c ∈ calls → z !! call_token c = None) →
    ∀ (i : nat) c, calls !! i = Some c →
      ∃ r, (consume_each L identifier calls s).1 !! i = Some (Normal r)
        ∧ total r = max L
        ∧ if decide (Z.of_nat (size z) + Z.of_nat i < max L)
          then allowed r = true
               ∧ remaining r = max L - 1 - (Z.of_nat (size z) + Z.of_nat i)
               ∧ resetAt r = c.1 + windowMs L
          else allowed r = false ∧ remaining r = 0.
Proof.
  intros key. induction calls as [|[now random] calls IH];
    intros z s Hws Htimes Hnd Hfresh i c Hi; [done|].
  rewrite fmap_cons in Hnd. apply NoDup_cons in Hnd as [Htok Hnd].
  assert (t0 ≤ now < t0 + windowMs L) as Hnow
    by (apply (Htimes (now, random)), elem_of_cons; by left).
  assert (z !! call_token (now, random) = None) as Hz
    by (apply Hfresh, elem_of_cons; by left).
  assert (∀ c', c' ∈ calls → c' ∈ (now, random) :: calls) as Hlater
    by (intros c' Hc'; apply elem_of_cons; by right).
  simpl. destruct (decide (Z.of_nat (size z) < max L)) as [Hroom|Hfull].
  - destruct (consume_window_admit L now random identifier (Some 1) t0 z s
                Hws Hnow Hroom) as (s1 & -> & Hws1).
    fold key in Hws1. change (default 1 (Some 1)) with 1 in Hws1.
    rewrite entries_one in Hws1.
    change (add_entries [_] z)
      with (<[call_token (now, random) := now + Z.of_nat 0]> z) in Hws1.
    set (z1 := <[call_token (now, random) := now + Z.of_nat 0]> z) in *.
    assert (size z1 = S (size z)) as Hsize
      by (by apply map_size_insert_None).
    destruct (consume_each L identifier calls s1) as [rs s2] eqn:Hrest.
    destruct i as [|i]; simpl in *.
    + injection Hi as <-. eexists. split; [done|]. simpl.
      rewrite decide_True by lia. split_and!; [done..|lia|done].
    + destruct (IH z1 s1 Hws1) with (i := i) (c := c) as (r & Hr & Ht & Hres);
        [by auto|done| |done|].
      { intros c' Hc'. unfold z1. rewrite lookup_insert_ne.
        - by auto.
        - intros Heq. apply Htok. rewrite Heq.
          apply list_elem_of_fmap. by exists c'. }
      rewrite Hrest in Hr. exists r. split_and!; [done..|].
      rewrite Hsize in Hres.
      replace (Z.of_nat (size z) + Z.of_nat (S i))
        with (Z.of_nat (S (size z)) + Z.of_nat i) by lia.
      done.
  - destruct (consume_window_full L now random identifier (Some 1) t0 z s)
      as (ra & ->); [done|lia|lia|].
    destruct (consume_each L identifier calls s) as [rs s2] eqn:Hrest.
    destruct i as [|i]; simpl in *.
    + eexists. split; [done|]. simpl. by rewrite decide_False by lia.
    + destruct (IH z s Hws) with (i := i) (c := c) as (r & Hr & Ht & Hres);
        [by auto|done|by auto|done|].
      rewrite Hrest in Hr. exists r. split_and!; [done..|].
      rewrite decide_False in Hres by lia. by rewrite decide_False by lia.
Qed.

(** C4.  On a fresh identifier and a limiter with [max > 0], in a run of
    [consume(identifier, 1)] calls that all fall in one window and draw
    distinct tokens, the call of index [i < max] is admitted with
    [remaining = max - 1 - i] (from [max - 1] down to [0]), and every later
    call, the [(max+1)]-th first, is rejected with [remaining = 0]. *)
Theorem monotonic_admission L identifier t0 calls s :
  0 < max L →
  s !! getKey L identifier = None →
  (∀ c, c ∈ calls → t0 ≤ c.1 < t0 + windowMs L) →
  NoDup (call_token <$> calls) →
  ∀ (i : nat) c, calls !! i = Some c →
    ∃ r, (consume_each L identifier calls s).1 !! i = Some (Normal r)
      ∧ total r = max L
      ∧ if decide (Z.of_nat i < max L)
        then allowed r = true
             ∧ remaining r = max L - 1 - Z.of_nat i
             ∧ resetAt r = c.1 + windowMs L
        else allowed r = false ∧ remaining r = 0.
Proof.
  intros Hmax Hk Htimes Hnd i c Hi.
  destruct (consume_each_window L identifier t0 calls ∅ s)
    with (i := i) (c := c) as (r & Hr & Ht & Hres); [by left|done..|].
  exists r. split_and!; [done..|].
  by rewrite map_size_empty in Hres.
Qed.

Lemma monotonic_admission_witness :
  let L := {| windowMs := 1000; max := 2; keyPrefix := "rl:" |} in
  let calls := [(0, λ _, "0.5"); (100, λ _, "0.5"); (200, λ _ : nat, "0.5")] in
  (0 < max L
   ∧ (∅ : db) !! getKey L "u" = None
   ∧ (∀ c, c ∈ calls → 0 ≤ c.1 < 0 + windowMs L)
   ∧ NoDup (call_token <$> calls))
  ∧ ∃ r, (consume_each L "u" calls ∅).1 !! 2%nat = Some (Normal r)
      ∧ total r = max L
      ∧ if decide (Z.of_nat 2 < max L)
        then allowed r = true ∧ remaining r = max L - 1 - Z.of_nat 2
             ∧ resetAt r = 200 + windowMs L
        else allowed r = false ∧ remaining r = 0.
Proof.
  intros L calls.
  assert (0 < max L) as Hmax by done.
  assert ((∅ : db) !! getKey L "u" = None) as Hk by done.
  assert (∀ c, c ∈ calls → 0 ≤ c.1 < 0 + windowMs L) as Htimes
    by (intros c Hc; repeat (apply elem_of_cons in Hc as [->|Hc]);
        [simpl; lia..|by apply elem_of_nil in Hc]).
  assert (NoDup (call_token <$> calls)) as Hnd
    by (apply (bool_decide_unpack _); by vm_compute).
  split; [exact (conj Hmax (conj Hk (conj Htimes Hnd)))|].
  exact (monotonic_admission L "u" 0 calls ∅ Hmax Hk Htimes Hnd
           2%nat (200, λ _, "0.5") eq_refl).
Defined.

(** The run of the limiter with [windowMs = 1000] and [max = 2] at the
    instants 0, 100 and 200. *)
Example run_0_100_200 :
  (consume_each {| windowMs := 1000; max := 2; keyPrefix := "rl:" |} "u"
     [(0, λ _, "0.5"); (100, λ _, "0.5"); (200, λ _ : nat, "0.5")] ∅).1 =
  [Normal {| allowed := true; remaining := 1; total := 2; resetAt := 1000 |};
   Normal {| allowed := true; remaining := 0; total := 2; resetAt := 1100 |};
   Normal {| allowed := false; remaining := 0; total := 2; resetAt := 1100 |}].
Proof. by vm_compute. Qed.

(** ** Cost *)

(** C1, as the code behaves.  On a fresh identifier and a limiter with
    [max = 10], [consume(id, 5)] is admitted with [remaining = 5] and leaves
    5 entries; a following [consume(id, 6)] in the same window, with tokens
    the first call did not draw, finds [5 < 10] and is admitted as well: it
    returns [allowed = true], [remaining = 0] and leaves 11 entries. *)
Theorem cost_semantics L now now' random random' identifier s :
  let key := getKey L identifier in
  max L = 10 →
  s !! key = None →
  now ≤ now' < now + windowMs L →
  (∀ i j : nat, (i < 5)%nat → (j < 6)%nat →
     token now i (random i) ≠ token now' j (random' j)) →
  ∃ s1 s2,
    consume L now random identifier (Some 5) s =
      (Normal {| allowed := true; remaining := 5; total := 10;
                 resetAt := now + windowMs L |}, s1)
    ∧ entry_count key s1 = 5
    ∧ consume L now' random' identifier (Some 6) s1 =
        (Normal {| allowed := true; remaining := 0; total := 10;
                   resetAt := now' + windowMs L |}, s2)
    ∧ entry_count key s2 = 11.
Proof.
  intros key Hmax Hk Hnow Hdistinct.
  assert (window_state key now (windowMs L) ∅ s) as Hws0 by (by left).
  destruct (consume_window_admit L now random identifier (Some 5) now ∅ s)
    as (s1 & Hcall1 & Hws1); [done|lia|rewrite map_size_empty; lia|].
  fold key in Hws1. change (default 1 (Some 5)) with 5 in *.
  set (z1 := add_entries (entries now random 5) ∅) in *.
  assert (size z1 = 5%nat) as Hsize1.
  { unfold z1. rewrite add_entries_size, entries_length, map_size_empty;
      [done|apply entries_NoDup|by intros]. }
  destruct (consume_window_admit L now' random' identifier (Some 6) now z1 s1)
    as (s2 & Hcall2 & Hws2); [done|lia|lia|].
  fold key in Hws2. change (default 1 (Some 6)) with 6 in *.
  set (z2 := add_entries (entries now' random' 6) z1) in *.
  assert (size z2 = 11%nat) as Hsize2.
  { unfold z2. rewrite add_entries_size, entries_length, Hsize1;
      [done|apply entries_NoDup|].
    intros m (j & Hj & ->)%elem_of_entries_keys.
    unfold z1. rewrite add_entries_lookup_notin; [done|].
    intros (i & Hi & Heq)%elem_of_entries_keys.
    apply (Hdistinct i j); [lia|lia|done]. }
  exists s1, s2. split_and!.
  - rewrite Hcall1, map_size_empty, Hmax. done.
  - rewrite (window_state_count _ _ _ _ _ Hws1), Hsize1. done.
  - rewrite Hcall2, Hsize1, Hmax. done.
  - rewrite (window_state_count _ _ _ _ _ Hws2), Hsize2. done.
Qed.

Lemma cost_semantics_witness :
  let L := {| windowMs := 1000; max := 10; keyPrefix := "rl:" |} in
  let random : nat → string := λ _, "0.5" in
  (max L = 10
   ∧ (∅ : db) !! getKey L "u" = None
   ∧ 5000 ≤ 5001 < 5000 + windowMs L
   ∧ (∀ i j : nat, (i < 5)%nat → (j < 6)%nat →
        token 5000 i (random i) ≠ token 5001 j (random j)))
  ∧ ∃ s1 s2,
      consume L 5000 random "u" (Some 5) ∅ =
        (Normal {| allowed := true; remaining := 5; total := 10;
                   resetAt := 5000 + windowMs L |}, s1)
      ∧ entry_count (getKey L "u") s1 = 5
      ∧ consume L 5001 random "u" (Some 6) s1 =
          (Normal {| allowed := true; remaining := 0; total := 10;
                     resetAt := 5001 + windowMs L |}, s2)
      ∧ entry_count (getKey L "u") s2 = 11.
Proof.
  intros L random.
  assert (max L = 10) as Hmax by reflexivity.
  assert ((∅ : db) !! getKey L "u" = None) as Hk by reflexivity.
  assert (5000 ≤ 5001 < 5000 + windowMs L) as Hnow by (simpl; lia).
  assert (∀ i j : nat, (i < 5)%nat → (j < 6)%nat →
            token 5000 i (random i) ≠ token 5001 j (random j)) as Hdistinct.
  { intros i j _ _. unfold token.
    change (pretty 5000) with "5000". change (pretty 5001) with "5001".
    simpl. discriminate. }
  split; [exact (conj Hmax (conj Hk (conj Hnow Hdistinct)))|].
  exact (cost_semantics L 5000 5001 random random "u" ∅
           Hmax Hk Hnow Hdistinct).
Defined.

(** C1, as stated, fails: the second call, of cost 6 on a window that holds
    5 of 10, is not rejected, and the record grows from 5 entries to 11. *)
Lemma cost_over_remaining_admitted :
  let L := {| windowMs := 1000; max := 10; keyPrefix := "rl:" |} in
  let random : nat → string := λ _, "0.5" in
  let first := consume L 5000 random "u" (Some 5) ∅ in
  let second := consume L 5001 random "u" (Some 6) first.2 in
  first.1 = Normal {| allowed := true; remaining := 5; total := 10;
                      resetAt := 6000 |}
  ∧ entry_count (getKey L "u") first.2 = 5
  ∧ second.1 = Normal {| allowed := true; remaining := 0; total := 10;
                         resetAt := 6001 |}
  ∧ entry_count (getKey L "u") second.2 = 11
  ∧ ¬ (∃ r, second.1 = Normal r ∧ allowed r = false
            ∧ entry_count (getKey L "u") second.2 = 5).
Proof.
  intros L random first second.
  assert (second.1 = Normal {| allowed := true; remaining := 0; total := 10;
                               resetAt := 6001 |}) as Hsecond
    by (by vm_compute).
  split_and!; [by vm_compute|by vm_compute|done|by vm_compute|].
  intros (r & Hr & Hrej & _). rewrite Hsecond in Hr.
  injection Hr as <-. discriminate.
Qed.

(** ** Validation *)

(** C3, as the code behaves.  Nothing is validated.  The constructor returns
    a limiter for every options object, and keeps any non-zero [windowMs] and
    [max], negative ones included, as given; [consume] returns a result for
    every cost, negative ones included. *)
Theorem no_eager_validation :
  (∀ options, ∃ L,
     constructor options = Normal L
     ∧ (∀ w, opt_windowMs options = Some w → w ≠ 0 → windowMs L = w)
     ∧ (∀ m, opt_max options = Some m → m ≠ 0 → max L = m))
  ∧ (∀ L now random identifier cost s, ∃ r s1,
       consume L now random identifier cost s = (Normal r, s1)).
Proof.
  split.
  - intros options. eexists. split; [done|]. simpl.
    split; intros v -> Hv; unfold js_or; by rewrite decide_False.
  - intros L now random identifier cost s. rewrite consume_unfold.
    destruct (_ >=? _); by do 2 eexists.
Qed.

(** C3, as stated, fails: a negative [windowMs] and a negative [max] make a
    limiter, and a negative cost is consumed (and reported as admitted, with
    more remaining than the total). *)
Lemma invalid_configuration_accepted :
  let options := {| opt_windowMs := Some (-5); opt_max := Some (-1);
                    opt_keyPrefix := None |} in
  let L := {| windowMs := 1000; max := 10; keyPrefix := "rl:" |} in
  let call := consume L 5000 (λ _, "0.5") "u" (Some (-3)) ∅ in
  constructor options =
    Normal {| windowMs := -5; max := -1; keyPrefix := "rl:" |}
  ∧ ¬ (∃ e, constructor options = Throw e)
  ∧ call.1 = Normal {| allowed := true; remaining := 13; total := 10;
                       resetAt := 6000 |}
  ∧ ¬ (∃ e, call.1 = Throw e).
Proof.
  intros options L call. split_and!.
  - done.
  - by intros [e ?].
  - by vm_compute.
  - intros [e He]. by vm_compute in He.
Qed.

(** ** Instances *)


Lemma consume_rejected_witness :
  let L := {| windowMs := 1000; max := 1; keyPrefix := "rl:" |} in
  let random : nat → string := λ _, "0.5" in
  max L ≤ entry_count (getKey L "u") (trim L 5000 "u" one_entry)
  ∧ consume L 5000 random "u" None one_entry =
      (Normal {| allowed := false;
                 remaining := 0;
                 total := max L;
                 resetAt :=
                   5000 + Z.max (pttl 5000 (getKey L "u")
                                   (trim L 5000 "u" one_entry)).1 0 |},
       trim L 5000 "u" one_entry).
Proof.
  intros L random.
  assert (max L ≤ entry_count (getKey L "u") (trim L 5000 "u" one_entry))
    as Hfull by (by vm_compute).
  split; [exact Hfull|].
  exact (consume_rejected L 5000 random "u" None one_entry Hfull).
Defined.


Lemma reset_then_check_witness :
  let L := {| windowMs := 1000; max := 10; keyPrefix := "rl:" |} in
  let key := getKey L "u" in
  0 < max L
  ∧ ∃ s1,
      reset L 5000 "u" one_entry = (Normal tt, s1)
      ∧ s1 !! key = None
      ∧ (∀ k, k ≠ key → s1 !! k = one_entry !! k)
      ∧ (one_entry !! key = None → s1 = one_entry)
      ∧ ∃ r,
          (check L 5001 "u" s1).1 = Normal r
          ∧ allowed r = true ∧ remaining r = max L ∧ total r = max L
          ∧ ∀ s0, s0 !! key = None → (check L 5001 "u" s0).1 = Normal r.
Proof.
  intros L key.
  assert (0 < max L) as Hmax by reflexivity.
  split; [exact Hmax|].
  exact (reset_then_check L 5000 5001 "u" one_entry Hmax).
Defined.


(** * Further properties *)

(** ** The trim, record by record *)

Lemma trim_lookup L now identifier s :
  trim L now identifier s !! getKey L identifier =
  s !! getKey L identifier ≫= trim_record now (now - windowMs L).
Proof.
  unfold trim, run, expireIfNeeded, zremrangebyscore, trim_record.
  destruct (s !! getKey L identifier) as [r|] eqn:Hk; simpl; [|by rewrite Hk].
  destruct (expired now r).
  - rewrite lookup_delete_eq. simpl. by rewrite lookup_delete_eq.
  - rewrite Hk. simpl. case_decide.
    + by rewrite lookup_delete_eq.
    + by rewrite lookup_insert_eq.
Qed.

Lemma trim_lookup_other L now identifier s k :
  k ≠ getKey L identifier → trim L now identifier s !! k = s !! k.
Proof.
  intros Hne. unfold trim, run, zremrangebyscore.
  destruct (expireIfNeeded now (getKey L identifier) s !! getKey L identifier)
    as [r|]; simpl.
  - case_decide; rewrite ?lookup_delete_ne, ?lookup_insert_ne by done;
      by apply expireIfNeeded_other.
  - by apply expireIfNeeded_other.
Qed.

Lemma trim_record_idemp now ws r r' :
  trim_record now ws r = Some r' → trim_record now ws r' = Some r'.
Proof.
  unfold trim_record. destruct (expired now r) eqn:He; [done|].
  case_decide as Hkept; [done|]. intros [= <-].
  unfold expired in *. simpl. rewrite He.
  rewrite map_filter_filter_l by done.
  by rewrite decide_False.
Qed.

Lemma trim_idemp L now identifier s :
  trim L now identifier (trim L now identifier s) = trim L now identifier s.
Proof.
  apply map_eq. intros k.
  destruct (decide (k = getKey L identifier)) as [->|Hne].
  - rewrite !trim_lookup.
    destruct (s !! getKey L identifier) as [r|]; simpl; [|done].
    destruct (trim_record now (now - windowMs L) r) as [r'|] eqn:Hr; [|done].
    simpl. by apply trim_record_idemp in Hr.
  - by rewrite !trim_lookup_other.
Qed.

(** X2.  What the trim of [check] and [consume] keeps: of a record that has
    not expired, the members whose score is below [0] or above
    [now - windowMs], each with its score; of an expired record, nothing. *)
Theorem trim_zscore L now identifier s member :
  zscore (getKey L identifier) member (trim L now identifier s) =
  r ← s !! getKey L identifier;
  if expired now r then None
  else v ← zset r !! member;
       if decide (0 ≤ v ≤ now - windowMs L) then None else Some v.
Proof.
  unfold zscore, zset_at. rewrite trim_lookup.
  destruct (s !! getKey L identifier) as [r|]; simpl; [|done].
  unfold trim_record. destruct (expired now r); simpl; [done|].
  case_decide as Hkept; simpl.
  - destruct (zset r !! member) as [v|] eqn:Hm; simpl; [|done].
    case_decide as Hv; [done|].
    assert (filter (λ ms, ¬ in_range 0 (now - windowMs L) ms.2) (zset r)
              !! member = Some v) as Hin
      by (by apply map_lookup_filter_Some).
    by rewrite Hkept in Hin.
  - destruct (zset r !! member) as [v|] eqn:Hm; simpl.
    + case_decide as Hv.
      * apply map_lookup_filter_None. right. intros v' Hv' Hout.
        simpl in Hout. rewrite Hm in Hv'. injection Hv' as <-. by apply Hout.
      * by apply map_lookup_filter_Some.
    + apply map_lookup_filter_None. by left.
Qed.

(** ** [check] as a probe *)

Lemma check_store L now identifier s :
  (check L now identifier s).2 = trim L now identifier s.
Proof. by rewrite check_unfold. Qed.

(** X3.  A second [check] at the same instant returns the same result and
    leaves the store as the first one left it. *)
Theorem check_idempotent L now identifier s :
  check L now identifier (check L now identifier s).2 =
  check L now identifier s.
Proof.
  rewrite check_store, !check_unfold. by rewrite trim_idemp.
Qed.

(** X4.  A [check] does not change what a [consume] at the same instant
    does: result and store are those of the [consume] alone. *)
Theorem check_then_consume L now random identifier cost s :
  consume L now random identifier cost (check L now identifier s).2 =
  consume L now random identifier cost s.
Proof.
  rewrite check_store, !consume_unfold. by rewrite trim_idemp.
Qed.

(** X5.  [check] tells what a [consume] at the same instant on the same
    store will decide: the two results agree on [allowed] and [total]; an
    admitted [consume] reports the [remaining] of [check] less the cost,
    not below [0]; a rejected one reports [0], as [check] does, and leaves
    the store as [check] leaves it. *)
Theorem check_predicts_consume L now random identifier cost s :
  ∃ rc ru s1 s2,
    check L now identifier s = (Normal rc, s1)
    ∧ consume L now random identifier cost s = (Normal ru, s2)
    ∧ allowed ru = allowed rc
    ∧ total ru = total rc
    ∧ (if allowed rc
       then remaining ru = Z.max 0 (remaining rc - default 1 cost)
       else remaining ru = 0 ∧ remaining rc = 0 ∧ s2 = s1).
Proof.
  rewrite check_unfold, consume_unfold.
  set (count := entry_count _ _).
  destruct (Z.geb_spec count (max L)) as [Hfull|Hroom];
    do 4 eexists; (split; [done|]); (split; [done|]); simpl.
  - destruct (Z.ltb_spec count (max L)) as [?|_]; [lia|].
    split_and!; [done..|lia|done].
  - destruct (Z.ltb_spec count (max L)) as [_|?]; [|lia].
    split_and!; [done..|lia].
Qed.

Lemma trim_record_all_in_range now ws r :
  map_Forall (λ _ v, 0 ≤ v ≤ ws) (zset r) → trim_record now ws r = None.
Proof.
  intros Hall. unfold trim_record. destruct (expired now r); [done|].
  rewrite decide_True; [done|].
  apply map_empty. intros m. apply map_lookup_filter_None. right.
  intros v Hm Hout. apply Hout. by apply (Hall m).
Qed.

Lemma trim_all_old L now identifier s :
  let key := getKey L identifier in
  (∀ r, s !! key = Some r →
        map_Forall (λ _ v, 0 ≤ v ≤ now - windowMs L) (zset r)) →
  trim L now identifier s = delete key s.
Proof.
  intros key Hold. apply map_eq. intros k.
  destruct (decide (k = key)) as [->|Hne].
  - unfold key. rewrite trim_lookup, lookup_delete_eq. fold key.
    destruct (s !! key) as [r|] eqn:Hk; simpl; [|done].
    by apply trim_record_all_in_range, Hold.
  - rewrite trim_lookup_other, lookup_delete_ne by done. done.
Qed.

(** X6.  Once every entry of the record is [windowMs] old or older (its
    score is between [0] and [now - windowMs]), [check] deletes the record
    and reports the full quota: [remaining = max(0, max)], [allowed] exactly
    when [max > 0], and [resetAt = now]. *)
Theorem window_expired L now identifier s :
  let key := getKey L identifier in
  (∀ r, s !! key = Some r →
        map_Forall (λ _ v, 0 ≤ v ≤ now - windowMs L) (zset r)) →
  check L now identifier s =
  (Normal {| allowed := 0 <? max L;
             remaining := Z.max 0 (max L);
             total := max L;
             resetAt := now |},
   delete key s).
Proof.
  intros key Hold.
  rewrite check_unfold, trim_all_old by done. fold key.
  unfold entry_count, zcard, pttl. rewrite lookup_delete_eq. simpl.
  by rewrite Z.sub_0_r, Z.add_0_r.
Qed.

Lemma window_expired_witness :
  let L := {| windowMs := 1000; max := 10; keyPrefix := "rl:" |} in
  (∀ r, one_entry !! getKey L "u" = Some r →
        map_Forall (λ _ v, 0 ≤ v ≤ 5900 - windowMs L) (zset r))
  ∧ check L 5900 "u" one_entry =
      (Normal {| allowed := 0 <? max L;
                 remaining := Z.max 0 (max L);
                 total := max L;
                 resetAt := 5900 |},
       delete (getKey L "u") one_entry).
Proof.
  intros L.
  assert (∀ r, one_entry !! getKey L "u" = Some r →
               map_Forall (λ _ v, 0 ≤ v ≤ 5900 - windowMs L) (zset r))
    as Hold.
  { intros r Hr. change (getKey L "u") with "rl:u" in Hr.
    unfold one_entry in Hr. rewrite lookup_insert_eq in Hr.
    injection Hr as <-. apply map_Forall_singleton. simpl. lia. }
  split; [exact Hold|].
  exact (window_expired L 5900 "u" one_entry Hold).
Defined.

(** X7.  [check] writes nothing: under the key of the identifier it only
    takes entries away and leaves the expiry of a record it keeps as it
    was, and it leaves every other key alone. *)
Theorem check_only_trims L now identifier s :
  let key := getKey L identifier in
  let s1 := (check L now identifier s).2 in
  zset_at key s1 ⊆ zset_at key s
  ∧ entry_count key s1 ≤ entry_count key s
  ∧ (∀ r1, s1 !! key = Some r1 →
       ∃ r, s !! key = Some r ∧ expire r1 = expire r)
  ∧ (∀ k, k ≠ key → s1 !! k = s !! k).
Proof.
  intros key s1. unfold s1. rewrite check_store.
  assert (zset_at key (trim L now identifier s) ⊆ zset_at key s) as Hsub.
  { unfold zset_at, key. rewrite trim_lookup.
    destruct (s !! getKey L identifier) as [r|]; simpl; [|done].
    unfold trim_record. destruct (expired now r); simpl;
      [apply map_empty_subseteq|].
    case_decide; simpl; [apply map_empty_subseteq|apply map_filter_subseteq]. }
  split_and!.
  - done.
  - rewrite !entry_count_size. apply map_subseteq_size in Hsub. lia.
  - intros r1. unfold key. rewrite trim_lookup.
    destruct (s !! getKey L identifier) as [r|]; simpl; [|done].
    unfold trim_record. destruct (expired now r); [done|].
    case_decide; [done|]. intros [= <-]. by exists r.
  - intros k Hne. by apply trim_lookup_other.
Qed.

(** ** One identifier at a time *)

Lemma getKey_inj L a b : getKey L a = getKey L b → a = b.
Proof. unfold getKey. apply (inj (String.app (keyPrefix L))). Qed.

Lemma run_other t c s k :
  k ≠ key_of c → (run t c s).2 !! k = s !! k.
Proof.
  intros Hne. destruct c as [key lo hi|key|key|key sc m|key ms|key];
    simpl in *.
  - unfold zremrangebyscore.
    destruct (expireIfNeeded t key s !! key); simpl;
      [case_decide|]; rewrite ?lookup_delete_ne, ?lookup_insert_ne by done;
      by apply expireIfNeeded_other.
  - rewrite zcard_store. by apply expireIfNeeded_other.
  - rewrite pttl_store. by apply expireIfNeeded_other.
  - rewrite zadd_store, lookup_insert_ne by done.
    by apply expireIfNeeded_other.
  - unfold pexpire.
    destruct (expireIfNeeded t key s !! key); simpl;
      [case_decide|]; rewrite ?lookup_delete_ne, ?lookup_insert_ne by done;
      by apply expireIfNeeded_other.
  - unfold del.
    destruct (expireIfNeeded t key s !! key); simpl;
      rewrite ?lookup_delete_ne by done; by apply expireIfNeeded_other.
Qed.

Lemma run_multi_other t cs s k :
  Forall (λ c, k ≠ key_of c) cs → (run_multi t cs s).2 !! k = s !! k.
Proof.
  revert s. induction cs as [|c cs IH]; intros s Hcs; [done|].
  apply Forall_cons in Hcs as [Hc Hcs]. simpl.
  destruct (run t c s) as [reply s1] eqn:Hrun.
  specialize (IH s1 Hcs).
  destruct (run_multi t cs s1) as [replies s2]. simpl in *.
  rewrite IH. by rewrite <-(run_other t c s k Hc), Hrun.
Qed.

(** [consume] leaves every key but its own alone. *)
Lemma consume_other L now random identifier cost s k :
  k ≠ getKey L identifier →
  (consume L now random identifier cost s).2 !! k = s !! k.
Proof.
  intros Hne. rewrite consume_unfold.
  destruct (_ >=? _); simpl; [by apply trim_lookup_other|].
  rewrite run_multi_other; [by apply trim_lookup_other|].
  apply Forall_app. split; [|by repeat constructor].
  unfold adds. apply Forall_fmap, Forall_forall. by intros i _.
Qed.

Lemma pttl_reply t key s :
  (pttl t key s).1 =
  match s !! key with
  | Some r => match expire r with Some e => Z.max (e - t) 0 | None => -1 end
  | None => -2
  end.
Proof. unfold pttl. destruct (s !! key) as [[z [e|]]|]; done. Qed.

(** The results of [check] and [consume] are read off the record of the
    identifier alone. *)
Lemma check_local L now identifier s s' :
  s !! getKey L identifier = s' !! getKey L identifier →
  (check L now identifier s).1 = (check L now identifier s').1.
Proof.
  intros Hk. rewrite !check_unfold. simpl.
  assert (trim L now identifier s !! getKey L identifier
          = trim L now identifier s' !! getKey L identifier) as Ht
    by (by rewrite !trim_lookup, Hk).
  rewrite !entry_count_size, !pttl_reply. unfold zset_at. by rewrite Ht.
Qed.

Lemma consume_local L now random identifier cost s s' :
  s !! getKey L identifier = s' !! getKey L identifier →
  (consume L now random identifier cost s).1 =
  (consume L now random identifier cost s').1.
Proof.
  intros Hk. rewrite !consume_unfold.
  assert (trim L now identifier s !! getKey L identifier
          = trim L now identifier s' !! getKey L identifier) as Ht
    by (by rewrite !trim_lookup, Hk).
  rewrite !entry_count_size, !pttl_reply. unfold zset_at. rewrite Ht.
  by destruct (_ >=? _).
Qed.

(** X8.  Identifiers do not interfere.  Two different identifiers have
    different keys, and whatever one of them went through ([check],
    [consume] or [reset]), the record of the other is as it was, so a
    [check] or a [consume] on the other returns what it would have returned
    otherwise. *)
Theorem identifiers_independent L a b now random cost s s1 :
  a ≠ b →
  s1 = (check L now a s).2
  ∨ s1 = (consume L now random a cost s).2
  ∨ s1 = (reset L now a s).2 →
  getKey L a ≠ getKey L b
  ∧ s1 !! getKey L b = s !! getKey L b
  ∧ ∀ now' random' cost',
      (check L now' b s1).1 = (check L now' b s).1
      ∧ (consume L now' random' b cost' s1).1 =
        (consume L now' random' b cost' s).1.
Proof.
  intros Hab Hs1.
  assert (getKey L b ≠ getKey L a) as Hne
    by (intros Heq; by apply getKey_inj in Heq).
  assert (s1 !! getKey L b = s !! getKey L b) as Hb.
  { destruct Hs1 as [->|[->| ->]].
    - rewrite check_store. by apply trim_lookup_other.
    - by apply consume_other.
    - rewrite reset_store. simpl. by apply lookup_delete_ne. }
  split_and!; [done|done|]. intros now' random' cost'.
  split; [by apply check_local|by apply consume_local].
Qed.

Lemma identifiers_independent_witness :
  let L := {| windowMs := 1000; max := 10; keyPrefix := "rl:" |} in
  let random : nat → string := λ _, "0.5" in
  let s1 := (consume L 5000 random "v" (Some 3) one_entry).2 in
  "v" ≠ "u"
  ∧ getKey L "v" ≠ getKey L "u"
  ∧ s1 !! getKey L "u" = one_entry !! getKey L "u"
  ∧ ∀ now' random' cost',
      (check L now' "u" s1).1 = (check L now' "u" one_entry).1
      ∧ (consume L now' random' "u" cost' s1).1 =
        (consume L now' random' "u" cost' one_entry).1.
Proof.
  intros L random s1.
  assert ("v" ≠ "u") as Hab by discriminate.
  split; [exact Hab|].
  exact (identifiers_independent L "v" "u" 5000 random (Some 3) one_entry s1
           Hab (or_intror (or_introl eq_refl))).
Defined.

(** ** More on [consume] *)

Lemma add_entries_size_bounds es (z : gmap string Z) :
  (size z ≤ size (add_entries es z) ≤ size z + length es)%nat.
Proof.
  revert z. induction es as [|[k v] es IH]; intros z; [simpl; lia|].
  rewrite add_entries_cons. specialize (IH (<[k := v]> z)).
  rewrite map_size_insert in IH. simpl in *.
  destruct (z !! k); simpl in IH; lia.
Qed.

Lemma add_entries_keeps es (z : gmap string Z) m :
  is_Some (z !! m) → is_Some (add_entries es z !! m).
Proof.
  revert z. induction es as [|[k v] es IH]; intros z Hm; [done|].
  rewrite add_entries_cons. apply IH. simpl.
  destruct (decide (k = m)) as [->|Hne].
  - rewrite lookup_insert_eq. by eexists.
  - by rewrite lookup_insert_ne.
Qed.

(** X9.  Whatever tokens are drawn, an admitted [consume] on a limiter with
    a positive window takes no member away and adds at most [cost] entries:
    the count it leaves is between the count after the trim and that count
    plus the cost. *)
Theorem consume_count_bounds L now random identifier cost s :
  let key := getKey L identifier in
  let s1 := trim L now identifier s in
  let s2 := (consume L now random identifier cost s).2 in
  0 < windowMs L →
  entry_count key s1 < max L →
  entry_count key s1 ≤ entry_count key s2
    ≤ entry_count key s1 + Z.max 0 (default 1 cost)
  ∧ ∀ m, is_Some (zscore key m s1) → is_Some (zscore key m s2).
Proof.
  intros key s1 s2 Hw Hroom. unfold s2.
  rewrite consume_admit by done. fold key s1. simpl.
  set (es := entries now random (default 1 cost)).
  destruct (decide (es = [] ∧ s1 !! key = None)) as [_|_].
  { split; [lia|done]. }
  pose proof (add_entries_size_bounds es (zset_at key s1)) as Hsize.
  assert (length es = Z.to_nat (default 1 cost)) as Hlen
    by apply entries_length.
  rewrite Hlen in Hsize.
  set (s' := <[key := _]> s1).
  assert (zset_at key s' = add_entries es (zset_at key s1)) as Hz
    by (unfold zset_at at 1, s'; by rewrite lookup_insert_eq).
  split.
  - rewrite !entry_count_size, Hz. lia.
  - intros m. unfold zscore. rewrite Hz. apply add_entries_keeps.
Qed.

Lemma consume_count_bounds_witness :
  let L := {| windowMs := 1000; max := 10; keyPrefix := "rl:" |} in
  let random : nat → string := λ _, "0.5" in
  let key := getKey L "u" in
  let s1 := trim L 5000 "u" one_entry in
  let s2 := (consume L 5000 random "u" (Some 3) one_entry).2 in
  (0 < windowMs L ∧ entry_count key s1 < max L)
  ∧ entry_count key s1 ≤ entry_count key s2
      ≤ entry_count key s1 + Z.max 0 (default 1 (Some 3))
  ∧ ∀ m, is_Some (zscore key m s1) → is_Some (zscore key m s2).
Proof.
  intros L random key s1 s2.
  assert (0 < windowMs L) as Hw by reflexivity.
  assert (entry_count key s1 < max L) as Hroom by (by vm_compute).
  split; [exact (conj Hw Hroom)|].
  exact (consume_count_bounds L 5000 random "u" (Some 3) one_entry Hw Hroom).
Defined.

Lemma rejected_expiry L now random identifier cost s :
  let key := getKey L identifier in
  let s1 := trim L now identifier s in
  max L ≤ entry_count key s1 →
  ∃ r, consume L now random identifier cost s = (Normal r, s1)
       ∧ allowed r = false
       ∧ resetAt r = match s1 !! key with
                     | Some rec => default now (expire rec)
                     | None => now
                     end.
Proof.
  intros key s1 Hfull. rewrite consume_unfold. fold key s1.
  destruct (Z.geb_spec (entry_count key s1) (max L)) as [_|?]; [|lia].
  eexists. split_and!; [done..|]. simpl. rewrite pttl_reply.
  pose proof (trim_live L now identifier s) as Hlive. fold key s1 in Hlive.
  destruct (s1 !! key) as [rec|] eqn:Hk; [|lia].
  specialize (Hlive rec Hk). unfold expired in Hlive.
  destruct (expire rec) as [e|]; simpl; [|lia].
  apply bool_decide_eq_false in Hlive. lia.
Qed.

(** X10.  A rejected [consume] reports as [resetAt] the instant at which
    the record expires; for a record without expiry, and when there is no
    record, it reports [now]. *)
Theorem consume_rejected_resetAt L now random identifier cost s :
  let key := getKey L identifier in
  let s1 := trim L now identifier s in
  max L ≤ entry_count key s1 →
  ∃ r, (consume L now random identifier cost s).1 = Normal r
       ∧ allowed r = false
       ∧ resetAt r = match s1 !! key with
                     | Some rec => default now (expire rec)
                     | None => now
                     end.
Proof.
  intros key s1 Hfull.
  destruct (rejected_expiry L now random identifier cost s Hfull)
    as (r & Hr & Hrej & Hreset).
  exists r. by rewrite Hr.
Qed.

Lemma consume_rejected_resetAt_witness :
  let L := {| windowMs := 1000; max := 1; keyPrefix := "rl:" |} in
  let random : nat → string := λ _, "0.5" in
  let key := getKey L "u" in
  let s1 := trim L 5000 "u" one_entry in
  max L ≤ entry_count key s1
  ∧ ∃ r, (consume L 5000 random "u" None one_entry).1 = Normal r
         ∧ allowed r = false
         ∧ resetAt r = match s1 !! key with
                       | Some rec => default 5000 (expire rec)
                       | None => 5000
                       end.
Proof.
  intros L random key s1.
  assert (max L ≤ entry_count key s1) as Hfull by (by vm_compute).
  split; [exact Hfull|].
  exact (consume_rejected_resetAt L 5000 random "u" None one_entry Hfull).
Defined.

(** X11.  A limiter with a negative [max] admits nothing: every [check]
    reports [allowed = false] and [remaining = 0], every [consume] is
    rejected and records nothing. *)
Theorem negative_max_blocks L now random identifier cost s :
  max L < 0 →
  (∃ r, (check L now identifier s).1 = Normal r
        ∧ allowed r = false ∧ remaining r = 0)
  ∧ (∃ r, consume L now random identifier cost s =
            (Normal r, trim L now identifier s)
          ∧ allowed r = false ∧ remaining r = 0).
Proof.
  intros Hmax.
  pose proof (entry_count_nonneg (getKey L identifier)
                (trim L now identifier s)) as Hc.
  split.
  - rewrite check_unfold. eexists. split; [done|]. simpl. split.
    + apply Z.ltb_ge. lia.
    + lia.
  - rewrite consume_unfold.
    destruct (Z.geb_spec (entry_count (getKey L identifier)
                            (trim L now identifier s)) (max L)) as [_|?];
      [|lia].
    by eexists.
Qed.

Lemma negative_max_blocks_witness :
  let L := {| windowMs := 1000; max := -1; keyPrefix := "rl:" |} in
  let random : nat → string := λ _, "0.5" in
  max L < 0
  ∧ (∃ r, (check L 5000 "u" ∅).1 = Normal r
          ∧ allowed r = false ∧ remaining r = 0)
  ∧ (∃ r, consume L 5000 random "u" None ∅ = (Normal r, trim L 5000 "u" ∅)
          ∧ allowed r = false ∧ remaining r = 0).
Proof.
  intros L random.
  assert (max L < 0) as Hmax by reflexivity.
  split; [exact Hmax|].
  exact (negative_max_blocks L 5000 random "u" None ∅ Hmax).
Defined.

(** *** A window that is not positive *)




(** *** Tokens drawn twice *)

Lemma trim_kept L now identifier s r :
  trim L now identifier s !! getKey L identifier = Some r →
  expired now r = false
  ∧ zset r ≠ ∅
  ∧ map_Forall (λ _ v, ¬ in_range 0 (now - windowMs L) v) (zset r).
Proof.
  rewrite trim_lookup.
  destruct (s !! getKey L identifier) as [r0|]; simpl; [|done].
  unfold trim_record. destruct (expired now r0) eqn:He; [done|].
  case_decide; [done|]. intros [= <-]. simpl. split_and!; [done..|].
  intros m v Hm. by apply map_lookup_filter_Some in Hm as [_ ?].
Qed.

Lemma trim_fixpoint L now identifier s r :
  s !! getKey L identifier = Some r →
  expired now r = false →
  zset r ≠ ∅ →
  map_Forall (λ _ v, ¬ in_range 0 (now - windowMs L) v) (zset r) →
  trim L now identifier s = s.
Proof.
  intros Hk He Hne Hout. apply map_eq. intros k.
  destruct (decide (k = getKey L identifier)) as [->|?];
    [|by apply trim_lookup_other].
  rewrite trim_lookup, Hk. simpl. unfold trim_record. rewrite He.
  rewrite map_filter_id by (intros m v Hm; by apply (Hout m)).
  rewrite decide_False by done. by destruct r.
Qed.

Lemma add_entries_idemp es (z : gmap string Z) :
  NoDup es.*1 → add_entries es (add_entries es z) = add_entries es z.
Proof.
  intros Hnd. apply map_eq. intros m.
  destruct (decide (m ∈ es.*1)) as [Hin|Hout].
  - apply list_elem_of_fmap in Hin as ([m' v] & -> & Hin). simpl.
    by rewrite !(add_entries_lookup_in es _ m' v).
  - by rewrite !add_entries_lookup_notin.
Qed.

(** X13.  Quota is counted in tokens.  On a limiter with a positive
    window, a [consume] that draws the tokens of an admitted [consume] at
    the same instant again is admitted, if the count is still below [max],
    and leaves the store as it found it: it uses no quota. *)
Theorem replayed_tokens_not_counted L now random identifier cost s :
  let key := getKey L identifier in
  let s2 := (consume L now random identifier cost s).2 in
  0 < windowMs L →
  entry_count key (trim L now identifier s) < max L →
  entry_count key s2 < max L →
  ∃ r, consume L now random identifier cost s2 = (Normal r, s2)
       ∧ allowed r = true.
Proof.
  intros key s2 Hw Hroom Hroom2.
  set (s1 := trim L now identifier s) in *.
  set (es := entries now random (default 1 cost)).
  assert (s2 = if decide (es = [] ∧ s1 !! key = None) then s1
               else <[key := Record_ (add_entries es (zset_at key s1))
                                     (Some (now + windowMs L))]> s1) as Hs2
    by (unfold s2; by rewrite consume_admit).
  assert (trim L now identifier s2 = s2
          ∧ (if decide (es = [] ∧ s2 !! key = None) then s2
             else <[key := Record_ (add_entries es (zset_at key s2))
                                   (Some (now + windowMs L))]> s2) = s2)
    as [Htrim Hsame].
  { clearbody s2. subst s2.
    destruct (decide (es = [] ∧ s1 !! key = None)) as [[Hes Hk]|Hd].
    - split; [apply trim_idemp|]. by rewrite decide_True.
    - set (zn := add_entries es (zset_at key s1)).
      assert (map_Forall (λ _ v, ¬ in_range 0 (now - windowMs L) v) zn)
        as Hout.
      { apply add_entries_Forall.
        - unfold zset_at. destruct (s1 !! key) as [r|] eqn:Hr;
            [|apply map_Forall_empty].
          by apply trim_kept in Hr as (_ & _ & ?).
        - apply Forall_forall. intros [m v] Hin.
          apply elem_of_entries in Hin as (i & _ & _ & ->).
          unfold in_range. simpl. lia. }
      assert (zn ≠ ∅) as Hne.
      { destruct (decide (es = [])) as [Hes|Hes].
        - unfold zn. rewrite Hes. unfold zset_at.
          destruct (s1 !! key) as [r|] eqn:Hr; [|by destruct Hd].
          by apply trim_kept in Hr as (_ & ? & _).
        - apply add_entries_nonempty.
          destruct (decide (0 < default 1 cost)); [done|].
          destruct Hes. apply entries_nil. lia. }
      split.
      + apply (trim_fixpoint _ _ _ _ (Record_ zn (Some (now + windowMs L))));
          [apply lookup_insert_eq| |done..].
        unfold expired. simpl. apply bool_decide_eq_false. lia.
      + rewrite decide_False
          by (intros [_ Hk]; by rewrite lookup_insert_eq in Hk).
        unfold zset_at at 1. rewrite lookup_insert_eq. simpl. fold zn.
        unfold zn at 1. rewrite add_entries_idemp by apply entries_NoDup.
        fold zn. by rewrite insert_insert_eq. }
  eexists. split.
  - rewrite consume_admit; rewrite ?Htrim; [|done..]. fold key es.
    by rewrite Hsame.
  - reflexivity.
Qed.

Lemma replayed_tokens_not_counted_witness :
  let L := {| windowMs := 1000; max := 10; keyPrefix := "rl:" |} in
  let random : nat → string := λ _, "0.5" in
  let key := getKey L "u" in
  let s2 := (consume L 5000 random "u" (Some 3) ∅).2 in
  (0 < windowMs L
   ∧ entry_count key (trim L 5000 "u" ∅) < max L
   ∧ entry_count key s2 < max L)
  ∧ ∃ r, consume L 5000 random "u" (Some 3) s2 = (Normal r, s2)
         ∧ allowed r = true.
Proof.
  intros L random key s2.
  assert (0 < windowMs L) as Hw by reflexivity.
  assert (entry_count key (trim L 5000 "u" ∅) < max L) as Hroom
    by (by vm_compute).
  assert (entry_count key s2 < max L) as Hroom2 by (by vm_compute).
  split; [exact (conj Hw (conj Hroom Hroom2))|].
  exact (replayed_tokens_not_counted L 5000 random "u" (Some 3) ∅
           Hw Hroom Hroom2).
Defined.

(** ** The constructor *)

(** X1.  No limiter has a [windowMs] of [0], a [max] of [0] or an empty
    [keyPrefix]: the constructor returns a limiter for every options object,
    with [60000], [100] and ["rl:"] for the fields left out, and with a
    given prefix that is not empty kept as it is. *)
Theorem constructor_never_falsy options :
  ∃ L, constructor options = Normal L
       ∧ windowMs L ≠ 0 ∧ max L ≠ 0 ∧ keyPrefix L ≠ ""
       ∧ (opt_windowMs options = None → windowMs L = 60000)
       ∧ (opt_max options = None → max L = 100)
       ∧ (opt_keyPrefix options = None → keyPrefix L = "rl:")
       ∧ (∀ p, opt_keyPrefix options = Some p → p ≠ "" → keyPrefix L = p).
Proof.
  eexists. split; [done|]. simpl. unfold js_or, js_or_string.
  split_and!.
  - destruct (opt_windowMs options) as [w|]; [case_decide|]; done.
  - destruct (opt_max options) as [m|]; [case_decide|]; done.
  - destruct (opt_keyPrefix options) as [p|]; [case_decide|]; done.
  - by intros ->.
  - by intros ->.
  - by intros ->.
  - intros p -> Hp. by rewrite decide_False.
Qed.

(** ** The middleware *)

Lemma consume_normal L now random identifier cost s :
  ∃ r s1, consume L now random identifier cost s = (Normal r, s1).
Proof. rewrite consume_unfold. destruct (_ >=? _); by do 2 eexists. Qed.

(** The handler on a request that is not skipped and has a key. *)
Lemma middleware_limited `{ExpressRequest Req} L
    (options : MiddlewareOptions Req) now random later req w key r s1 :
  skip_of options req = Normal false →
  keyGenerator_of options req = Normal key →
  consume L now random key None (store w) = (Normal r, s1) →
  expressMiddleware L options now random later req w =
  let res1 := if headers_of options then with_rate_headers r (response w)
              else response w in
  if allowed r then
    (Normal tt, {| store := s1; response := res1; nexts := nexts w ++ [None] |})
  else
    let res2 := setHeader "Retry-After" (JNumber (retry_after r later)) res1 in
    match handler_of options req res2 with
    | Normal res3 =>
        (Normal tt, {| store := s1; response := res3; nexts := nexts w |})
    | Throw e =>
        (Normal tt, {| store := s1; response := res2;
                       nexts := nexts w ++ [Some e] |})
    end.
Proof.
  intros Hskip Hkey Hconsume.
  unfold expressMiddleware, try_catch, mbind, W_bind, callback.
  fold (skip_of options) (keyGenerator_of options) (headers_of options)
       (handler_of options).
  rewrite Hskip, Hkey. unfold lift_store. rewrite Hconsume.
  destruct (headers_of options), (allowed r); simpl; try done.
  - unfold handle. simpl. fold (with_rate_headers r (response w)).
    fold (retry_after r later).
    by destruct (handler_of options req _).
  - unfold handle. simpl. fold (retry_after r later).
    by destruct (handler_of options req _).
Qed.

(** The handler on a request that [skip] accepts. *)
Lemma middleware_skip `{ExpressRequest Req} L
    (options : MiddlewareOptions Req) now random later req w :
  skip_of options req = Normal true →
  expressMiddleware L options now random later req w =
  (Normal tt, {| store := store w; response := response w;
                 nexts := nexts w ++ [None] |}).
Proof.
  intros Hskip.
  unfold expressMiddleware, try_catch, mbind, W_bind, callback.
  fold (skip_of options). by rewrite Hskip.
Qed.

(** X14.  A request that [skip] accepts is handed on with a plain
    [next()]: nothing is consumed and nothing is written to the response,
    whatever the state of the limiter. *)
Theorem middleware_skipped `{ExpressRequest Req} L
    (options : MiddlewareOptions Req) now random later req w :
  skip_of options req = Normal true →
  ∃ w1,
    expressMiddleware L options now random later req w = (Normal tt, w1)
    ∧ nexts w1 = nexts w ++ [None]
    ∧ store w1 = store w
    ∧ response w1 = response w.
Proof.
  intros Hskip. eexists. split; [by apply middleware_skip|done].
Qed.

Lemma middleware_skipped_witness :
  let L := {| windowMs := 1000; max := 10; keyPrefix := "rl:" |} in
  let options : MiddlewareOptions (option string) :=
    {| mw_max := None; mw_windowMs := None; mw_keyGenerator := None;
       mw_skip := Some (λ _, Normal true); mw_handler := None;
       mw_headers := None |} in
  let w := {| store := one_entry; response := blank; nexts := [] |} in
  skip_of options (Some "u") = Normal true
  ∧ ∃ w1,
      expressMiddleware L options 5000 (λ _, "0.5") 5001 (Some "u") w
      = (Normal tt, w1)
      ∧ nexts w1 = nexts w ++ [None]
      ∧ store w1 = store w
      ∧ response w1 = response w.
Proof.
  intros L options w.
  assert (skip_of options (Some "u") = Normal true) as Hskip by reflexivity.
  split; [exact Hskip|].
  exact (middleware_skipped L options 5000 (λ _, "0.5") 5001 (Some "u") w
           Hskip).
Defined.

(** X15.  A request that is not skipped and that [consume] admits is
    handed on with a plain [next()].  The store is as [consume], called
    without a cost, left it; the response carries the three [X-RateLimit-]
    headers of the result unless [headers] is [false], in which case it is
    untouched; [Retry-After] is not written. *)
Theorem middleware_admitted `{ExpressRequest Req} L
    (options : MiddlewareOptions Req) now random later req w key r s1 :
  skip_of options req = Normal false →
  keyGenerator_of options req = Normal key →
  consume L now random key None (store w) = (Normal r, s1) →
  allowed r = true →
  ∃ res,
    expressMiddleware L options now random later req w =
    (Normal tt, {| store := s1; response := res; nexts := nexts w ++ [None] |})
    ∧ res = (if headers_of options
             then with_rate_headers r (response w) else response w)
    ∧ (headers_of options = true →
       getHeader "X-RateLimit-Limit" res = JNumber (total r)
       ∧ getHeader "X-RateLimit-Remaining" res = JNumber (remaining r)
       ∧ getHeader "X-RateLimit-Reset" res
         = JNumber (ceil_div (resetAt r) 1000))
    ∧ headers res !! "Retry-After" = headers (response w) !! "Retry-After"
    ∧ statusCode res = statusCode (response w)
    ∧ body res = body (response w).
Proof.
  intros Hskip Hkey Hconsume Hallowed. eexists. split.
  { rewrite (middleware_limited _ _ _ _ _ _ _ _ _ _ Hskip Hkey Hconsume).
    simpl. by rewrite Hallowed. }
  split; [done|].
  destruct (headers_of options); [|by split_and!].
  unfold getHeader, with_rate_headers, setHeader. simpl.
  rewrite !lookup_insert_eq.
  rewrite !(lookup_insert_ne _ "X-RateLimit-Reset") by done.
  rewrite !lookup_insert_eq.
  rewrite !(lookup_insert_ne _ "X-RateLimit-Remaining") by done.
  rewrite !lookup_insert_eq.
  rewrite !(lookup_insert_ne _ "X-RateLimit-Limit") by done.
  by split_and!.
Qed.

Lemma middleware_admitted_witness :
  let L := {| windowMs := 1000; max := 10; keyPrefix := "rl:" |} in
  let random : nat → string := λ _, "0.5" in
  let options : MiddlewareOptions (option string) := no_options in
  let w := {| store := one_entry; response := blank; nexts := [] |} in
  let r := {| allowed := true; remaining := 8; total := 10;
              resetAt := 6000 |} in
  let s1 := (consume L 5000 random "u" None one_entry).2 in
  (skip_of options (Some "u") = Normal false
   ∧ keyGenerator_of options (Some "u") = Normal "u"
   ∧ consume L 5000 random "u" None (store w) = (Normal r, s1)
   ∧ allowed r = true)
  ∧ ∃ res,
      expressMiddleware L options 5000 random 5001 (Some "u") w =
      (Normal tt, {| store := s1; response := res;
                     nexts := nexts w ++ [None] |})
      ∧ res = (if headers_of options
               then with_rate_headers r (response w) else response w)
      ∧ (headers_of options = true →
         getHeader "X-RateLimit-Limit" res = JNumber (total r)
         ∧ getHeader "X-RateLimit-Remaining" res = JNumber (remaining r)
         ∧ getHeader "X-RateLimit-Reset" res
           = JNumber (ceil_div (resetAt r) 1000))
      ∧ headers res !! "Retry-After" = headers (response w) !! "Retry-After"
      ∧ statusCode res = statusCode (response w)
      ∧ body res = body (response w).
Proof.
  intros L random options w r s1.
  assert (skip_of options (Some "u") = Normal false) as Hskip by reflexivity.
  assert (keyGenerator_of options (Some "u") = Normal "u") as Hkey
    by reflexivity.
  assert (consume L 5000 random "u" None (store w) = (Normal r, s1))
    as Hconsume by (by vm_compute).
  assert (allowed r = true) as Hallowed by reflexivity.
  split; [exact (conj Hskip (conj Hkey (conj Hconsume Hallowed)))|].
  exact (middleware_admitted L options 5000 random 5001 (Some "u") w "u" r s1
           Hskip Hkey Hconsume Hallowed).
Defined.



(** X17.  The [max] and [windowMs] of the middleware options are never
    read: whatever they are, the handler is the one built without them, and
    the limit applied is the limiter's own. *)
Theorem middleware_ignores_max_windowMs `{ExpressRequest Req} L
    (options : MiddlewareOptions Req) (m wms : option Z) :
  expressMiddleware L
    {| mw_max := m; mw_windowMs := wms;
       mw_keyGenerator := mw_keyGenerator options;
       mw_skip := mw_skip options;
       mw_handler := mw_handler options;
       mw_headers := mw_headers options |} =
  expressMiddleware L options.
Proof. done. Qed.

Lemma ceil_div_1000 x :
  x ≤ 1000 * ceil_div x 1000 < x + 1000.
Proof.
  unfold ceil_div.
  pose proof (Z.div_mod (- x) 1000 ltac:(lia)).
  pose proof (Z.mod_pos_bound (- x) 1000 ltac:(lia)).
  lia.
Qed.

(** X18.  The [Retry-After] of a rejected request is the time from [later]
    to the expiry of the record, in seconds, rounded up: waiting that many
    seconds reaches the expiry, waiting one second less does not; it is not
    negative as long as the record has not expired at [later]. *)
Theorem retry_after_reaches_expiry L now random identifier cost later s rec e :
  let key := getKey L identifier in
  let s1 := trim L now identifier s in
  max L ≤ entry_count key s1 →
  s1 !! key = Some rec →
  expire rec = Some e →
  ∃ r, (consume L now random identifier cost s).1 = Normal r
       ∧ allowed r = false
       ∧ later + 1000 * (retry_after r later - 1) < e
         ≤ later + 1000 * retry_after r later
       ∧ (later ≤ e → 0 ≤ retry_after r later).
Proof.
  intros key s1 Hfull Hrec He.
  destruct (rejected_expiry L now random identifier cost s Hfull)
    as (r & Hr & Hrej & Hreset).
  fold key s1 in Hreset. rewrite Hrec, He in Hreset. simpl in Hreset.
  exists r. rewrite Hr. split_and!; [done..| | |];
    unfold retry_after; rewrite Hreset;
    pose proof (ceil_div_1000 (e - later)); lia.
Qed.

Lemma retry_after_reaches_expiry_witness :
  let L := {| windowMs := 1000; max := 1; keyPrefix := "rl:" |} in
  let random : nat → string := λ _, "0.5" in
  let key := getKey L "u" in
  let s1 := trim L 5000 "u" one_entry in
  let rec := Record_ {["4900-0-0.1" := 4900]} (Some 5900) in
  (max L ≤ entry_count key s1
   ∧ s1 !! key = Some rec
   ∧ expire rec = Some 5900)
  ∧ ∃ r, (consume L 5000 random "u" None one_entry).1 = Normal r
         ∧ allowed r = false
         ∧ 5001 + 1000 * (retry_after r 5001 - 1) < 5900
           ≤ 5001 + 1000 * retry_after r 5001
         ∧ (5001 ≤ 5900 → 0 ≤ retry_after r 5001).
Proof.
  intros L random key s1 rec.
  assert (max L ≤ entry_count key s1) as Hfull by (by vm_compute).
  assert (s1 !! key = Some rec) as Hrec by (by vm_compute).
  assert (expire rec = Some 5900) as He by reflexivity.
  split; [exact (conj Hfull (conj Hrec He))|].
  exact (retry_after_reaches_expiry L 5000 random "u" None 5001 one_entry
           rec 5900 Hfull Hrec He).
Defined.

(** The handler when [skip] or [keyGenerator] throws. *)
Lemma middleware_early_throw `{ExpressRequest Req} L
    (options : MiddlewareOptions Req) now random later req w e :
  skip_of options req = Throw e
  ∨ (skip_of options req = Normal false
     ∧ keyGenerator_of options req = Throw e) →
  expressMiddleware L options now random later req w =
  (Normal tt, {| store := store w; response := response w;
                 nexts := nexts w ++ [Some e] |}).
Proof.
  intros Hthrow.
  unfold expressMiddleware, try_catch, mbind, W_bind, callback.
  fold (skip_of options) (keyGenerator_of options).
  destruct Hthrow as [->|[-> ->]]; done.
Qed.

(** X19.  An error thrown by [skip] or by [keyGenerator] is passed to
    [next]; nothing is consumed and nothing is written to the response. *)
Theorem middleware_error_before_consume `{ExpressRequest Req} L
    (options : MiddlewareOptions Req) now random later req w e :
  skip_of options req = Throw e
  ∨ (skip_of options req = Normal false
     ∧ keyGenerator_of options req = Throw e) →
  ∃ w1,
    expressMiddleware L options now random later req w = (Normal tt, w1)
    ∧ nexts w1 = nexts w ++ [Some e]
    ∧ store w1 = store w
    ∧ response w1 = response w.
Proof.
  intros Hthrow. eexists. split; [by apply middleware_early_throw|done].
Qed.

Lemma middleware_error_before_consume_witness :
  let L := {| windowMs := 1000; max := 10; keyPrefix := "rl:" |} in
  let options : MiddlewareOptions (option string) :=
    {| mw_max := None; mw_windowMs := None;
       mw_keyGenerator := Some (λ _, Throw "no key");
       mw_skip := None; mw_handler := None; mw_headers := None |} in
  let w := {| store := one_entry; response := blank; nexts := [] |} in
  (skip_of options (Some "u") = Throw "no key"
   ∨ (skip_of options (Some "u") = Normal false
      ∧ keyGenerator_of options (Some "u") = Throw "no key"))
  ∧ ∃ w1,
      expressMiddleware L options 5000 (λ _, "0.5") 5001 (Some "u") w
      = (Normal tt, w1)
      ∧ nexts w1 = nexts w ++ [Some "no key"]
      ∧ store w1 = store w
      ∧ response w1 = response w.
Proof.
  intros L options w.
  assert (skip_of options (Some "u") = Throw "no key"
          ∨ (skip_of options (Some "u") = Normal false
             ∧ keyGenerator_of options (Some "u") = Throw "no key"))
    as Hthrow by (right; split; reflexivity).
  split; [exact Hthrow|].
  exact (middleware_error_before_consume L options 5000 (λ _, "0.5") 5001
           (Some "u") w "no key" Hthrow).
Defined.

(** X20.  An error thrown by the handler of a rejected request is passed
    to [next] as well; by then [Retry-After] is on the response. *)
Theorem middleware_handler_throws `{ExpressRequest Req} L
    (options : MiddlewareOptions Req) now random later req w key r s1 e :
  let res1 := if headers_of options then with_rate_headers r (response w)
              else response w in
  let res2 := setHeader "Retry-After" (JNumber (retry_after r later)) res1 in
  skip_of options req = Normal false →
  keyGenerator_of options req = Normal key →
  consume L now random key None (store w) = (Normal r, s1) →
  allowed r = false →
  handler_of options req res2 = Throw e →
  expressMiddleware L options now random later req w =
    (Normal tt, {| store := s1; response := res2;
                   nexts := nexts w ++ [Some e] |})
  ∧ getHeader "Retry-After" res2 = JNumber (retry_after r later).
Proof.
  intros res1 res2 Hskip Hkey Hconsume Hrejected Hthrow. split.
  - rewrite (middleware_limited _ _ _ _ _ _ _ _ _ _ Hskip Hkey Hconsume).
    simpl. rewrite Hrejected. fold res1 res2. by rewrite Hthrow.
  - unfold getHeader, res2. simpl. by rewrite lookup_insert_eq.
Qed.

Lemma middleware_handler_throws_witness :
  let L := {| windowMs := 1000; max := 1; keyPrefix := "rl:" |} in
  let random : nat → string := λ _, "0.5" in
  let options : MiddlewareOptions (option string) :=
    {| mw_max := None; mw_windowMs := None; mw_keyGenerator := None;
       mw_skip := None; mw_handler := Some (λ _ _, Throw "boom");
       mw_headers := Some false |} in
  let w := {| store := one_entry; response := blank; nexts := [] |} in
  let r := {| allowed := false; remaining := 0; total := 1;
              resetAt := 5900 |} in
  let s1 := (consume L 5000 random "u" None one_entry).2 in
  let res2 := setHeader "Retry-After" (JNumber (retry_after r 5001)) blank in
  (skip_of options (Some "u") = Normal false
   ∧ keyGenerator_of options (Some "u") = Normal "u"
   ∧ consume L 5000 random "u" None (store w) = (Normal r, s1)
   ∧ allowed r = false
   ∧ handler_of options (Some "u") res2 = Throw "boom")
  ∧ expressMiddleware L options 5000 random 5001 (Some "u") w =
      (Normal tt, {| store := s1; response := res2;
                     nexts := nexts w ++ [Some "boom"] |})
  ∧ getHeader "Retry-After" res2 = JNumber (retry_after r 5001).
Proof.
  intros L random options w r s1 res2.
  assert (skip_of options (Some "u") = Normal false) as Hskip by reflexivity.
  assert (keyGenerator_of options (Some "u") = Normal "u") as Hkey
    by reflexivity.
  assert (consume L 5000 random "u" None (store w) = (Normal r, s1))
    as Hconsume by (by vm_compute).
  assert (allowed r = false) as Hrejected by reflexivity.
  assert (handler_of options (Some "u") res2 = Throw "boom") as Hthrow
    by reflexivity.
  split; [exact (conj Hskip (conj Hkey (conj Hconsume
                   (conj Hrejected Hthrow))))|].
  exact (middleware_handler_throws L options 5000 random 5001 (Some "u") w
           "u" r s1 "boom" Hskip Hkey Hconsume Hrejected Hthrow).
Defined.


(** X22.  With no [keyGenerator] in the options, a request is limited
    under its address, and every request without an address, or with an
    empty one, under the one identifier ["unknown"]. *)
Theorem middleware_default_key `{ExpressRequest Req} L
    (options : MiddlewareOptions Req) now random later req w :
  mw_keyGenerator options = None →
  skip_of options req = Normal false →
  ∃ w1 key,
    expressMiddleware L options now random later req w = (Normal tt, w1)
    ∧ store w1 = (consume L now random key None (store w)).2
    ∧ (req_ip req = None ∨ req_ip req = Some "" → key = "unknown")
    ∧ (∀ a, req_ip req = Some a → a ≠ "" → key = a).
Proof.
  intros Hgen Hskip.
  set (key := js_or_string (req_ip req) "unknown").
  assert (keyGenerator_of options req = Normal key) as Hkey
    by (unfold keyGenerator_of; by rewrite Hgen).
  destruct (consume_normal L now random key None (store w))
    as (r & s1 & Hconsume).
  assert (∃ w1, expressMiddleware L options now random later req w
                = (Normal tt, w1) ∧ store w1 = s1) as (w1 & Hrun & Hstore).
  { rewrite (middleware_limited _ _ _ _ _ _ _ _ _ _ Hskip Hkey Hconsume).
    simpl. destruct (allowed r); [by eexists|].
    destruct (handler_of options req _); by eexists. }
  exists w1, key. rewrite Hconsume. split_and!; [done..| |].
  - unfold key, js_or_string. by intros [-> | ->].
  - unfold key, js_or_string. intros a -> Ha. by rewrite decide_False.
Qed.

Lemma middleware_default_key_witness :
  let L := {| windowMs := 1000; max := 10; keyPrefix := "rl:" |} in
  let random : nat → string := λ _, "0.5" in
  let options : MiddlewareOptions (option string) := no_options in
  let w := {| store := one_entry; response := blank; nexts := [] |} in
  (mw_keyGenerator options = None
   ∧ skip_of options None = Normal false)
  ∧ ∃ w1 key,
      expressMiddleware L options 5000 random 5001 None w = (Normal tt, w1)
      ∧ store w1 = (consume L 5000 random key None (store w)).2
      ∧ (req_ip (None : option string) = None
         ∨ req_ip (None : option string) = Some "" → key = "unknown")
      ∧ (∀ a, req_ip (None : option string) = Some a → a ≠ "" → key = a).
Proof.
  intros L random options w.
  assert (mw_keyGenerator options = None) as Hgen by reflexivity.
  assert (skip_of options None = Normal false) as Hskip by reflexivity.
  split; [exact (conj Hgen Hskip)|].
  exact (middleware_default_key L options 5000 random 5001 None w Hgen Hskip).
Defined.

(** ** Starting over *)

(** X23.  [reset] gives the full quota back.  Whatever the store held, in a
    run of [consume(identifier, 1)] calls after a [reset], all in one window
    and with distinct tokens, the call of index [i] is admitted with
    [remaining = max - 1 - i] if [i < max], and rejected otherwise. *)
Theorem reset_restores_quota L identifier t t0 calls s :
  (∀ c, c ∈ calls → t0 ≤ c.1 < t0 + windowMs L) →
  NoDup (call_token <$> calls) →
  ∀ (i : nat) c, calls !! i = Some c →
    ∃ r, (consume_each L identifier calls (reset L t identifier s).2).1 !! i
         = Some (Normal r)
      ∧ if decide (Z.of_nat i < max L)
        then allowed r = true ∧ remaining r = max L - 1 - Z.of_nat i
        else allowed r = false ∧ remaining r = 0.
Proof.
  intros Htimes Hnd i c Hi. rewrite reset_store. simpl.
  destruct (consume_each_window L identifier t0 calls ∅
              (delete (getKey L identifier) s))
    with (i := i) (c := c) as (r & Hr & _ & Hres);
    [left; split; [done|apply lookup_delete_eq]|done..|].
  exists r. split; [done|]. rewrite map_size_empty in Hres.
  destruct (decide (Z.of_nat i < max L)).
  - rewrite decide_True in Hres by lia. destruct Hres as (? & ? & _).
    split; [done|lia].
  - by rewrite decide_False in Hres by lia.
Qed.

Lemma reset_restores_quota_witness :
  let L := {| windowMs := 1000; max := 1; keyPrefix := "rl:" |} in
  let calls := [(6000, λ _, "0.5"); (6100, λ _ : nat, "0.5")] in
  ((∀ c, c ∈ calls → 6000 ≤ c.1 < 6000 + windowMs L)
   ∧ NoDup (call_token <$> calls))
  ∧ ∃ r, (consume_each L "u" calls (reset L 5950 "u" one_entry).2).1 !! 1%nat
         = Some (Normal r)
      ∧ if decide (Z.of_nat 1 < max L)
        then allowed r = true ∧ remaining r = max L - 1 - Z.of_nat 1
        else allowed r = false ∧ remaining r = 0.
Proof.
  intros L calls.
  assert (∀ c, c ∈ calls → 6000 ≤ c.1 < 6000 + windowMs L) as Htimes
    by (intros c Hc; repeat (apply elem_of_cons in Hc as [->|Hc]);
        [simpl; lia..|by apply elem_of_nil in Hc]).
  assert (NoDup (call_token <$> calls)) as Hnd
    by (apply (bool_decide_unpack _); by vm_compute).
  split; [exact (conj Htimes Hnd)|].
  exact (reset_restores_quota L "u" 5950 6000 calls one_entry Htimes Hnd
           1%nat (6100, λ _, "0.5") eq_refl).
Defined.

(** X24.  The window slides off.  On a limiter with a positive window and
    [max > 0], once every entry of the record is [windowMs] old or older, a
    [consume] is admitted as on a fresh identifier, with
    [remaining = max(0, max - cost)], and the record it leaves holds the
    entries of this call and no others. *)
Theorem consume_after_expiry L now random identifier cost s :
  let key := getKey L identifier in
  let c := default 1 cost in
  0 < windowMs L →
  0 < max L →
  (∀ r, s !! key = Some r →
        map_Forall (λ _ v, 0 ≤ v ≤ now - windowMs L) (zset r)) →
  ∃ s2,
    consume L now random identifier cost s =
    (Normal {| allowed := true;
               remaining := Z.max 0 (max L - c);
               total := max L;
               resetAt := now + windowMs L |}, s2)
    ∧ zset_at key s2 = add_entries (entries now random c) ∅
    ∧ entry_count key s2 = Z.max 0 c.
Proof.
  intros key c Hw Hmax Hold.
  assert (trim L now identifier s !! key = None) as Hk
    by (rewrite trim_all_old by done; apply lookup_delete_eq).
  assert (zset_at key (trim L now identifier s) = ∅) as Hz
    by (unfold zset_at; by rewrite Hk).
  assert (entry_count key (trim L now identifier s) = 0) as Hcount
    by (by rewrite entry_count_size, Hz, map_size_empty).
  eexists. split.
  { rewrite consume_admit; fold key; rewrite ?Hcount; [|done..].
    by rewrite Z.sub_0_r. }
  fold c. rewrite Hz. set (es := entries now random c).
  assert (zset_at key
            (if decide (es = [] ∧ trim L now identifier s !! key = None)
             then trim L now identifier s
             else <[key := Record_ (add_entries es ∅)
                                   (Some (now + windowMs L))]>
                    (trim L now identifier s)) = add_entries es ∅) as Hz2.
  { case_decide as Hd.
    - destruct Hd as [-> _]. by rewrite Hz.
    - unfold zset_at. by rewrite lookup_insert_eq. }
  split; [done|].
  rewrite entry_count_size, Hz2, add_entries_size, map_size_empty;
    [|apply entries_NoDup|by intros].
  unfold es. rewrite entries_length. lia.
Qed.

Lemma consume_after_expiry_witness :
  let L := {| windowMs := 1000; max := 10; keyPrefix := "rl:" |} in
  let random : nat → string := λ _, "0.5" in
  let key := getKey L "u" in
  (0 < windowMs L
   ∧ 0 < max L
   ∧ (∀ r, one_entry !! key = Some r →
           map_Forall (λ _ v, 0 ≤ v ≤ 5900 - windowMs L) (zset r)))
  ∧ ∃ s2,
      consume L 5900 random "u" (Some 2) one_entry =
      (Normal {| allowed := true;
                 remaining := Z.max 0 (max L - 2);
                 total := max L;
                 resetAt := 5900 + windowMs L |}, s2)
      ∧ zset_at key s2 = add_entries (entries 5900 random 2) ∅
      ∧ entry_count key s2 = Z.max 0 2.
Proof.
  intros L random key.
  assert (0 < windowMs L) as Hw by reflexivity.
  assert (0 < max L) as Hmax by reflexivity.
  assert (∀ r, one_entry !! key = Some r →
               map_Forall (λ _ v, 0 ≤ v ≤ 5900 - windowMs L) (zset r))
    as Hold.
  { intros r Hr. change key with "rl:u" in Hr.
    unfold one_entry in Hr. rewrite lookup_insert_eq in Hr.
    injection Hr as <-. apply map_Forall_singleton. simpl. lia. }
  split; [exact (conj Hw (conj Hmax Hold))|].
  exact (consume_after_expiry L 5900 random "u" (Some 2) one_entry
           Hw Hmax Hold).
Defined.
